(** * stop_motion.py: duration allocator and video assembler

    A shallow embedding of the logic-bearing functions of
    [stop_motion.py]: the Streamlit callbacks [update_total_duration] and
    [rescale_individual_durations] (with their helper
    [get_selected_indices_and_durations]) and [generate_video].

    Python integers are [Z]; Python floats are IEEE 754 binary64 values,
    modelled by the executable specification [SpecFloat] of the standard
    library at precision 53 and maximal exponent 1024.  The Streamlit
    session state is a dictionary, modelled by finite maps; a callback is
    a state transformer that may raise. *)

From Stdlib Require Import ZArith Lia List Reals Lra SpecFloat Ascii.
From stdpp Require Import gmap strings list.

(** ** Python built-ins *)

Module Py.

(** The exceptions the modelled code can raise. *)
Inductive exn :=
| KeyError
| ZeroDivisionError
| OverflowError
| ValueError
| FileNotFoundError.

(** An evaluation either raises or returns a value. *)
Definition result (A : Type) : Type := exn + A.
Abbreviation Raise := inl (only parsing).
Abbreviation Ok := inr (only parsing).

(** A computation over a mutable store [S]: the store after the
    computation is kept also when it raises, as assignments made before
    a [raise] are not undone. *)
Definition M (S A : Type) : Type := S → S * result A.

#[global] Instance M_ret {S} : MRet (M S) := λ A a st, (st, Ok a).
#[global] Instance M_bind {S} : MBind (M S) := λ A B f c st,
  match c st with
  | (st', inr a) => f a st'
  | (st', inl e) => (st', Raise e)
  end.

Definition lift {S A} (r : result A) : M S A := λ st, (st, r).
Definition gets {S A} (f : S → A) : M S A := λ st, (st, Ok (f st)).
Definition modify {S} (f : S → S) : M S unit := λ st, (f st, Ok tt).

(** [for x in l: body(x)] *)
Fixpoint for_ {S A} (l : list A) (body : A → M S unit) : M S unit :=
  match l with
  | [] => mret tt
  | x :: l' => _ ← body x; for_ l' body
  end.

(** [[x for x in l if cond(x)]] *)
Fixpoint filterM {S A} (cond : A → M S bool) (l : list A) : M S (list A) :=
  match l with
  | [] => mret []
  | x :: l' =>
      b ← cond x;
      r ← filterM cond l';
      mret (if b : bool then x :: r else r)
  end.

(** [enumerate(l)] *)
Definition enumerate {A} (l : list A) : list (nat * A) :=
  zip (seq 0 (length l)) l.

(** [len(l)] and the truth value of a list *)
Definition len {A} (l : list A) : Z := Z.of_nat (length l).
Definition truthy {A} (l : list A) : bool :=
  match l with [] => false | _ => true end.

(** [sum(l)] on integers *)
Definition sum (l : list Z) : Z := foldl Z.add 0%Z l.

(** [a // b] on integers: floor division *)
Definition floordiv (a b : Z) : result Z :=
  if (b =? 0)%Z then Raise ZeroDivisionError else Ok (a `div` b)%Z.

(** [max(a, b)] on integers *)
Definition max (a b : Z) : Z := if (a <? b)%Z then b else a.

(** [range(n)], as the number of iterations *)
Definition range (n : Z) : list Z := Z.of_nat <$> seq 0 (Z.to_nat n).

End Py.

Import Py.

(** ** Binary64 floats, as Python uses them *)

Module Float.

Definition prec : Z := 53.
Definition emax : Z := 1024.

Definition float : Type := spec_float.

(** An integer as the pair of a sign and a magnitude with exponent 0:
    exact, not yet rounded to the format. *)
Definition exact_of_int (z : Z) : spec_float :=
  match z with
  | Z0 => S754_zero false
  | Zpos m => S754_finite false m 0
  | Zneg m => S754_finite true m 0
  end.

Definition finite_or_overflow (f : spec_float) : result float :=
  match f with
  | S754_infinity _ | S754_nan => Raise OverflowError
  | _ => Ok f
  end.

(** [float(z)]: the nearest binary64 value, ties to even;
    [OverflowError] when [z] is too large. *)
Definition of_int (z : Z) : result float :=
  finite_or_overflow (binary_normalize prec emax z 0 false).

(** [a / b] on integers: the correctly rounded quotient (CPython rounds
    the exact quotient once, whatever the size of the operands). *)
Definition truediv (a b : Z) : result float :=
  if (b =? 0)%Z then Raise ZeroDivisionError
  else finite_or_overflow (SFdiv prec emax (exact_of_int a) (exact_of_int b)).

(** [d * x] for an integer [d] and a float [x]: [d] is converted to a
    float first, the product is an IEEE multiplication (it may be
    infinite: Python does not raise on a float product). *)
Definition mul_int (d : Z) (x : float) : result float :=
  match of_int d with
  | inr fd => Ok (SFmul prec emax fd x)
  | inl e => Raise e
  end.

(** A float literal with an integer value, such as [1000.0]. *)
Definition const (z : Z) : float := binary_normalize prec emax z 0 false.

(** [x / d] for a float [x] and an integer [d]: [d] is converted to a
    float first; dividing by zero raises. *)
Definition div_int (x : float) (d : Z) : result float :=
  match of_int d with
  | inr (S754_zero _) => Raise ZeroDivisionError
  | inr fd => Ok (SFdiv prec emax x fd)
  | inl e => Raise e
  end.

(** [int(x)]: truncation toward zero. *)
Definition to_int (x : float) : result Z :=
  match x with
  | S754_zero _ => Ok 0%Z
  | S754_infinity _ => Raise OverflowError
  | S754_nan => Raise ValueError
  | S754_finite s m e =>
      let a := match e with
               | Z0 => Zpos m
               | Zpos _ => (Zpos m * 2 ^ e)%Z
               | Zneg _ => (Zpos m `div` 2 ^ (- e))%Z
               end in
      Ok (if s then (- a)%Z else a)
  end.

End Float.

(** ** The Streamlit session state *)

(** [st.session_state] holds, for every image index [i], the checkbox
    value under the key [use_i] and the duration under the key [dur_i],
    and the total under the key [total_duration] (set by the module before
    any callback can run).  Reading a key that is absent raises
    [KeyError]. *)
Record session_state := SessionState {
  use : gmap nat bool;
  dur : gmap nat Z;
  total_duration : Z
}.

Definition get_use (i : nat) : M session_state bool := λ st,
  match use st !! i with
  | Some b => (st, Ok b)
  | None => (st, Raise KeyError)
  end.

Definition get_dur (i : nat) : M session_state Z := λ st,
  match dur st !! i with
  | Some d => (st, Ok d)
  | None => (st, Raise KeyError)
  end.

Definition set_dur (i : nat) (v : Z) : M session_state unit :=
  modify (λ st, SessionState (use st) (<[i := v]> (dur st)) (total_duration st)).

Definition set_total_duration (v : Z) : M session_state unit :=
  modify (λ st, SessionState (use st) (dur st) v).

(** [if "use_i" not in st.session_state: st.session_state["use_i"] = True] *)
Definition init_use (i : nat) : M session_state unit :=
  modify (λ st,
    match use st !! i with
    | Some _ => st
    | None => SessionState (<[i := true]> (use st)) (dur st) (total_duration st)
    end).

(** [if "dur_i" not in st.session_state: st.session_state["dur_i"] = 200] *)
Definition init_dur (i : nat) : M session_state unit :=
  modify (λ st,
    match dur st !! i with
    | Some _ => st
    | None => SessionState (use st) (<[i := 200%Z]> (dur st)) (total_duration st)
    end).

(** ** The duration allocator *)

Section Allocator.

(** The module-level list of image files, fixed for a session. *)
Variable image_files : list string.

(** The module-level loop that gives every image its default state:
    included, 200 ms; a key already present is left alone. *)
Definition initialise_session : M session_state unit :=
  for_ (enumerate image_files) (λ '(i, path),
    _ ← init_use i;
    init_dur i).

Definition get_selected_indices_and_durations
  : M session_state (list nat * list Z) :=
  indices ← filterM get_use (fst <$> enumerate image_files);
  durations ← mapM get_dur indices;
  mret (indices, durations).

Definition update_total_duration : M session_state unit :=
  '(_, durations) ← get_selected_indices_and_durations;
  set_total_duration (sum durations).

Definition rescale_individual_durations : M session_state unit :=
  '(indices, durations) ← get_selected_indices_and_durations;
  if negb (truthy indices) then mret tt
  else
    let current_total := sum durations in
    target_total ← gets total_duration;
    if (current_total =? 0)%Z then
      new_duration ← lift (if truthy indices
                           then floordiv target_total (len indices)
                           else Ok 0%Z);
      for_ indices (λ i, set_dur i new_duration)
    else
      scale ← lift (Float.truediv target_total current_total);
      for_ indices (λ i,
        d ← get_dur i;
        y ← lift (Float.mul_int d scale);
        v ← lift (Float.to_int y);
        set_dur i v).

End Allocator.

(** ** The video assembler *)

(** A decoded image, as [imageio.imread] returns it. *)
Record image := Image { pixels : list Z }.

(** A video file: its frame rate, the frames written so far, and whether
    its writer has been closed. *)
Record video := Video {
  fps : Float.float;
  frames : list image;
  closed : bool
}.

(** The part of the outside world [generate_video] touches: the image
    files that can be decoded, the video files, and the messages shown by
    [st.error].  Image files and video files are two maps, as the page
    keeps them apart (images under [images/] and [thumbs/], the video at
    [output.mp4]): the model does not relate what the two hold at one and
    the same path, so what is stated of the image files after a call is
    stated for an output path that names no image file. *)
Record world := World {
  images : gmap string image;
  videos : gmap string video;
  errors : list string
}.

(** [st.error(msg)] *)
Definition st_error (msg : string) : M world unit :=
  modify (λ w, World (images w) (videos w) (errors w ++ [msg])).

(** [imageio.imread(path)] *)
Definition imread (path : string) : M world image := λ w,
  match images w !! path with
  | Some img => (w, Ok img)
  | None => (w, Raise FileNotFoundError)
  end.

(** The imageio writer is a library object, local to the call that makes
    it.  It is lazy: [imageio.get_writer(path, fps)] touches no file; the
    first frame the writer is handed starts the file at its path afresh,
    replacing a file that is there, and every frame goes to the end of
    that file.  The object holds its path, its frame rate and the frames
    it has been handed. *)
Record writer := Writer {
  writer_path : string;
  writer_fps : Float.float;
  writer_sent : list image
}.

Definition get_writer (path : string) (fps : Float.float) : writer :=
  Writer path fps [].

(** The world in which the file of the writer [wr] holds the frames
    [sent]. *)
Definition write_file (wr : writer) (sent : list image) (closed : bool)
    (w : world) : world :=
  World (images w)
        (<[writer_path wr := Video (writer_fps wr) sent closed]> (videos w))
        (errors w).

(** [writer.append_data(img)]: one more frame at the end of the file,
    which the first frame starts. *)
Definition append_data (img : image) : M (world * writer) unit := λ '(w, wr),
  let sent := writer_sent wr ++ [img] in
  ((write_file wr sent false w, Writer (writer_path wr) (writer_fps wr) sent),
   Ok tt).

(** [writer.close()]: a file that was started is finished; a writer that
    was handed no frame has no file, and nothing is written. *)
Definition close : M (world * writer) unit := λ '(w, wr),
  match writer_sent wr with
  | [] => ((w, wr), Ok tt)
  | _ :: _ => ((write_file wr (writer_sent wr) true w, wr), Ok tt)
  end.

(** A computation on the world, run by a call that holds a writer. *)
Definition on_world {A} (c : M world A) : M (world * writer) A := λ '(w, wr),
  let '(w', r) := c w in ((w', wr), r).

(** A call with a writer as a local object.  When the call is left, by
    its return or by an exception, the object is released, and an imageio
    writer that is released finishes the file it has started (a closed
    one has nothing left to do). *)
Definition with_local {A} (wr : writer) (body : M (world * writer) A)
    : M world A := λ w,
  let '(s, r) := body (w, wr) in (fst (fst (close s)), r).

Definition zero_duration_message : string :=
  "Cannot generate video with zero duration for all frames.".

Definition generate_video
  (image_paths : list string) (durations : list Z) (output_path : string)
  : M world unit :=
  let valid_durations := filter (λ d, 0 < d)%Z durations in
  if negb (truthy valid_durations) then
    st_error zero_duration_message
  else
    let frame_duration_ms := 40%Z in
    fps ← lift (Float.div_int (Float.const 1000) frame_duration_ms);
    let writer := get_writer output_path fps in
    with_local writer (
      _ ← for_ (zip image_paths durations) (λ '(path, duration),
            img ← on_world (imread path);
            q ← lift (floordiv duration frame_duration_ms);
            let num_frames := max 1 q in
            for_ (range num_frames) (λ _, append_data img));
      close).

(** The body of the loop over the zipped pairs. *)
Definition assemble_body : string * Z → M (world * writer) unit :=
  λ '(path, duration),
    img ← on_world (imread path);
    q ← lift (floordiv duration 40);
    let num_frames := max 1 q in
    for_ (range num_frames) (λ _, append_data img).

(** ** Paths, as [os.path] handles them on POSIX *)

Module OsPath.

Definition sep : Ascii.ascii := "/"%char.

(** The highest index of [c] in [s], the first character counting as
    [pos]; -1 when [c] does not occur ([s.rfind(c)] for [pos = 0]). *)
Fixpoint rfind_from (c : Ascii.ascii) (s : string) (pos : Z) : Z :=
  match s with
  | EmptyString => (-1)%Z
  | String a r =>
      let later := rfind_from c r (pos + 1) in
      if (0 <=? later)%Z then later
      else if Ascii.eqb a c then pos else (-1)%Z
  end.

Definition rfind (c : Ascii.ascii) (s : string) : Z := rfind_from c s 0.

Fixpoint drop_chars (n : nat) (s : string) : string :=
  match n, s with
  | O, _ => s
  | S k, String _ r => drop_chars k r
  | S _, EmptyString => EmptyString
  end.

(** [s[i:]] for an index [i >= 0] *)
Definition slice_from (i : Z) (s : string) : string := drop_chars (Z.to_nat i) s.

(** [s.startswith("/")] and [s.endswith("/")] *)
Definition startswith_sep (s : string) : bool :=
  match s with
  | String a _ => Ascii.eqb a sep
  | EmptyString => false
  end.

Fixpoint endswith_sep (s : string) : bool :=
  match s with
  | EmptyString => false
  | String a EmptyString => Ascii.eqb a sep
  | String _ r => endswith_sep r
  end.

(** [os.path.basename(p)]: what follows the last separator. *)
Definition basename (p : string) : string :=
  let i := (rfind sep p + 1)%Z in
  slice_from i p.

(** [os.path.join(a, b)] *)
Definition join (a b : string) : string :=
  if startswith_sep b then b
  else if String.eqb a "" || endswith_sep a then a +:+ b
  else a +:+ "/" +:+ b.

End OsPath.

(** ** Thumbnails *)

Definition THUMB_DIR : string := "thumbs".
Definition THUMB_SIZE : Z * Z := (250, 250)%Z.

Section Thumbnails.

(** The Pillow operations are library code, taken as they come:
    [thumbnail im size] is the image [im.thumbnail(size)] leaves, and
    [encodable im path] tells whether [im.save(path)] can write [im]
    under the file name [path] (a known extension, a mode its format
    supports). *)
Variable thumbnail : image → Z * Z → image.
Variable encodable : image → string → bool.

(** The paths that exist without being a decodable image or a video of
    the world: directories, other files. *)
Variable other_paths : gset string.

(** [os.path.exists(path)] *)
Definition path_exists (path : string) : M world bool :=
  gets (λ w, bool_decide (is_Some (images w !! path) ∨ is_Some (videos w !! path)
                          ∨ path ∈ other_paths)).

(** [Image.open(path)]: the decoded image; a path that holds none
    raises (as [imread] does). *)
Definition image_open (path : string) : M world image := λ w,
  match images w !! path with
  | Some im => (w, Ok im)
  | None => (w, Raise FileNotFoundError)
  end.

(** [im.save(path)] *)
Definition image_save (im : image) (path : string) : M world unit := λ w,
  if encodable im path
  then (World (<[path := im]> (images w)) (videos w) (errors w), Ok tt)
  else (w, Raise ValueError).

Definition make_thumbnail (img_path : string) : M world string :=
  let thumb_path := OsPath.join THUMB_DIR (OsPath.basename img_path) in
  there ← path_exists thumb_path;
  _ ← (if negb there then
         im ← image_open img_path;
         let im := thumbnail im THUMB_SIZE in
         image_save im thumb_path
       else mret tt);
  mret thumb_path.

End Thumbnails.

(** ** Specification-side notions for the assembler *)

(** An input pair of the assembler: the path the image is read from, the
    image that [imread] decodes from it, and the requested duration. *)
Record item := Item {
  item_path : string;
  item_image : image;
  item_duration : Z
}.

(** Every image of the sequence can be read. *)
Definition loaded (w : world) (items : list item) : Prop :=
  Forall (λ it, images w !! item_path it = Some (item_image it)) items.

(** The validity check passes: some duration is positive. *)
Definition accepted (durations : list Z) : Prop :=
  ∃ d, d ∈ durations ∧ (0 < d)%Z.

(** The number of frames an item of [duration_ms] is given. *)
Definition repeat_count (duration_ms : Z) : nat :=
  Z.to_nat (Z.max 1 (duration_ms `div` 40)).

(** The frames of the output: the items in order, each image repeated. *)
Definition expected_frames (items : list item) : list image :=
  items ≫= (λ it, replicate (repeat_count (item_duration it)) (item_image it)).

(** 25 frames per second, as a binary64 value. *)
Definition fps_25 : Float.float := S754_finite false 7036874417766400 (-48).

(** The world after a completed assembly of the frames [fs] at [out]. *)
Definition assembled (w : world) (out : string) (fs : list image) : world :=
  World (images w) (<[out := Video fps_25 fs true]> (videos w)) (errors w).

(** The world after a rejected call: one more message, no file touched. *)
Definition rejected (w : world) : world :=
  World (images w) (videos w) (errors w ++ [zero_duration_message]).

(** The world a call leaves whose writer was handed the frames [fs]: with
    no frame nothing is written, the file at [out] is not touched;
    otherwise the finished file holds the frames. *)
Definition written (w : world) (out : string) (fs : list image) : world :=
  match fs with
  | [] => w
  | _ :: _ => assembled w out fs
  end.

(** The call at work: the world and the writer once the frames [fs] have
    gone to the writer made for [out]. *)
Definition running (w : world) (out : string) (fs : list image) : world * writer :=
  (match fs with
   | [] => w
   | _ :: _ => World (images w) (<[out := Video fps_25 fs false]> (videos w)) (errors w)
   end,
   Writer out fps_25 fs).

(** ** Specification-side notions for the allocator *)

(** Both keys of the image [i] are present. *)
Definition has_keys (st : session_state) (i : nat) : Prop :=
  is_Some (use st !! i) ∧ is_Some (dur st !! i).

(** Every key the callbacks read is present: the module initialises
    [use_i] and [dur_i] for every image before a callback can run. *)
Definition initialised (image_files : list string) (st : session_state) : Prop :=
  ∀ i, (i < length image_files)%nat →
       is_Some (use st !! i) ∧ is_Some (dur st !! i).

Definition included_b (st : session_state) (i : nat) : bool :=
  bool_decide (use st !! i = Some true).

(** The item [i] is included: it is an image index whose checkbox is set. *)
Definition included (image_files : list string) (st : session_state) (i : nat) : Prop :=
  (i < length image_files)%nat ∧ use st !! i = Some true.

Definition dur_of (st : session_state) (i : nat) : Z := default 0%Z (dur st !! i).

(** The number of included items and the sum of their durations, by a
    direct recursion over the image indices. *)
Fixpoint count_upto (st : session_state) (n : nat) : Z :=
  match n with
  | O => 0
  | S k => (count_upto st k + if included_b st k then 1 else 0)%Z
  end.

Fixpoint sum_upto (st : session_state) (n : nat) : Z :=
  match n with
  | O => 0
  | S k => (sum_upto st k + if included_b st k then dur_of st k else 0)%Z
  end.

Definition count_included (image_files : list string) (st : session_state) : Z :=
  count_upto st (length image_files).

Definition sum_included (image_files : list string) (st : session_state) : Z :=
  sum_upto st (length image_files).

(** The selection, in discovery order. *)
Definition selection (image_files : list string) (st : session_state) : list nat :=
  filter (λ i, use st !! i = Some true) (seq 0 (length image_files)).

(** What a loop over the indices [idx] may change: only the durations at
    these indices. *)
Definition frame (idx : list nat) (st st' : session_state) : Prop :=
  use st' = use st ∧ total_duration st' = total_duration st ∧
  ∀ j, j ∉ idx → dur st' !! j = dur st !! j.

(** One iteration of the proportional loop computes [int(d * scale)]. *)
Definition scaled (scale : Float.float) (d : Z) : result Z :=
  match Float.mul_int d scale with
  | inr y => Float.to_int y
  | inl e => Raise e
  end.

Definition rescale_body (scale : Float.float) (i : nat) : M session_state unit :=
  d ← get_dur i;
  y ← lift (Float.mul_int d scale);
  v ← lift (Float.to_int y);
  set_dur i v.

(** ** Real values of binary64 floats *)

(** The power [2 ^ e], for any integer exponent. *)
Definition bpow (e : Z) : R := powerRZ 2 e.

(** The real number [m * 2 ^ e]. *)
Definition F2R (m e : Z) : R := (IZR m * bpow e)%R.

(** The real [x] lies where the record [mrs] says: between its mantissa
    [m] and [m + 1], with the round bit telling the half and the sticky
    bit telling whether it is strictly inside. *)
Definition located (mrs : shr_record) (x : R) : Prop :=
  match shr_r mrs, shr_s mrs with
  | false, false => x = IZR (shr_m mrs)
  | false, true => (IZR (shr_m mrs) < x < IZR (shr_m mrs) + / 2)%R
  | true, false => x = (IZR (shr_m mrs) + / 2)%R
  | true, true => (IZR (shr_m mrs) + / 2 < x < IZR (shr_m mrs) + 1)%R
  end.

(** The unit roundoff of binary64. *)
Definition u53 : R := bpow (-53).

(** ** Concrete sessions, used to run the model *)

Definition three_files : list string := ["a.png"; "b.png"; "c.png"].
Definition one_file : list string := ["a.png"].

(** Three images, the second one excluded, all included durations 0. *)
Definition zero_session : session_state :=
  SessionState {[0%nat := true; 1%nat := false; 2%nat := true]}
               {[0%nat := 0%Z; 1%nat := 5%Z; 2%nat := 0%Z]} 115.

(** Three images, the second one excluded, the default duration 200. *)
Definition default_session : session_state :=
  SessionState {[0%nat := true; 1%nat := false; 2%nat := true]}
               {[0%nat := 200%Z; 1%nat := 200%Z; 2%nat := 200%Z]} 1000.

(** Three images, none included. *)
Definition empty_session : session_state :=
  SessionState {[0%nat := false; 1%nat := false; 2%nat := false]}
               {[0%nat := 200%Z; 1%nat := 200%Z; 2%nat := 200%Z]} 600.

(** One image of duration 7 ms, the total edited to 115 ms. *)
Definition seven_session : session_state :=
  SessionState {[0%nat := true]} {[0%nat := 7%Z]} 115.

(** One image of duration 1 ms, the total edited to [2^55 + 3] ms. *)
Definition huge_session : session_state :=
  SessionState {[0%nat := true]} {[0%nat := 1%Z]} (2 ^ 55 + 3).


(** Three images, the duration key of the included third one missing. *)
Definition broken_session : session_state :=
  SessionState {[0%nat := true; 1%nat := false; 2%nat := true]}
               {[0%nat := 200%Z; 1%nat := 200%Z]} 400.

(** Two decodable images and an older output file. *)
Definition image_A : image := Image [1; 1; 1]%Z.
Definition image_B : image := Image [2; 2; 2]%Z.

Definition two_images : world :=
  World {["a.png" := image_A; "b.png" := image_B]}
        {["output.mp4" := Video fps_25 [image_B] true]} [].

(** Whether a string holds a separator. *)
Fixpoint contains_sep (s : string) : bool :=
  match s with
  | EmptyString => false
  | String a r => Ascii.eqb a OsPath.sep || contains_sep r
  end.

(** The path of the thumbnail of [img_path]. *)
Definition thumb_path_of (img_path : string) : string :=
  "thumbs/" +:+ OsPath.basename img_path.

(** Something exists at [path]. *)
Definition exists_at (other_paths : gset string) (w : world) (path : string) : Prop :=
  is_Some (images w !! path) ∨ is_Some (videos w !! path) ∨ path ∈ other_paths.

(** A world with a source image and no thumbnail yet, and the same world
    with a thumbnail left by an earlier run. *)
Definition no_thumbs : world :=
  World {["images/a.png" := image_A]} ∅ [].

Definition old_thumb : world :=
  World {["images/a.png" := image_A; "thumbs/a.png" := image_B]} ∅ [].

(** The float [1.0]. *)
Definition float_one : Float.float := S754_finite false 4503599627370496 (-52).

(** A float that is zero or finite and positive. *)
Definition nonneg_float (x : Float.float) : Prop :=
  match x with
  | S754_zero _ | S754_finite false _ _ => True
  | _ => False
  end.

(** The video files other than the one at [out] are what they are in
    [w]. *)
Definition other_videos_kept (out : string) (w w' : world) : Prop :=
  ∀ p, p ≠ out → videos w' !! p = videos w !! p.

(** The writer of the call is the one made for [out], and so far the
    video files other than the one at [out] are what they are in [w0]. *)
Definition writes_at (out : string) (w0 : world) (s : world * writer) : Prop :=
  writer_path (snd s) = out ∧ other_videos_kept out w0 (fst s).

(** A thumbnail operation that leaves the image as it is, and a
    library that can write every image. *)
Definition plain_thumbnail : image → Z * Z → image := λ im _, im.
Definition always_encodable : image → string → bool := λ _ _, true.

(** ** Running monadic code *)

Lemma bind_run {S A B} (c : M S A) (f : A → M S B) (st : S) :
  (c ≫= f) st =
  match c st with
  | (st', inr a) => f a st'
  | (st', inl e) => (st', Raise e)
  end.
Proof. reflexivity. Qed.

Lemma bind_ok {S A B} (c : M S A) (f : A → M S B) st st' a :
  c st = (st', Ok a) → (c ≫= f) st = f a st'.
Proof. intros H. rewrite bind_run, H. reflexivity. Qed.

Lemma bind_raise {S A B} (c : M S A) (f : A → M S B) st st' e :
  c st = (st', Raise e) → (c ≫= f) st = (st', Raise e).
Proof. intros H. rewrite bind_run, H. reflexivity. Qed.

Lemma for_cons {S A} (x : A) (l : list A) (body : A → M S unit) (st : S) :
  for_ (x :: l) body st =
  match body x st with
  | (st', inr _) => for_ l body st'
  | (st', inl e) => (st', Raise e)
  end.
Proof. reflexivity. Qed.

Lemma fst_enumerate {A} (l : list A) : fst <$> enumerate l = seq 0 (length l).
Proof. unfold enumerate. apply fst_zip. rewrite length_seq. lia. Qed.

Lemma sum_foldl (l : list Z) (a : Z) : foldl Z.add a l = (a + sum l)%Z.
Proof.
  unfold sum. revert a. induction l as [|x l IH]; intros a; simpl.
  - lia.
  - rewrite (IH (a + x)%Z), (IH (0 + x)%Z). lia.
Qed.

Lemma sum_cons (x : Z) (l : list Z) : sum (x :: l) = (x + sum l)%Z.
Proof. unfold sum at 1. simpl. rewrite sum_foldl. lia. Qed.

Lemma sum_nil : sum [] = 0%Z.
Proof. reflexivity. Qed.

Lemma sum_app (l k : list Z) : sum (l ++ k) = (sum l + sum k)%Z.
Proof.
  induction l as [|x l IH]; simpl.
  - rewrite sum_nil. lia.
  - rewrite !sum_cons, IH. lia.
Qed.

(** ** Reading the selection *)

Section Selection.

Variable image_files : list string.

(** Reading never changes the session state. *)
Lemma filterM_get_use_state (l : list nat) (st : session_state) :
  fst (filterM get_use l st) = st.
Proof.
  induction l as [|i l IH]; simpl; [done|].
  rewrite bind_run. unfold get_use at 1.
  destruct (use st !! i) as [b|]; [|done].
  rewrite bind_run. destruct (filterM get_use l st) as [st' [e|r]]; simpl in *; done.
Qed.

Lemma mapM_get_dur_state (l : list nat) (st : session_state) :
  fst (mapM get_dur l st) = st.
Proof.
  induction l as [|i l IH]; simpl; [done|].
  rewrite bind_run. unfold get_dur at 1.
  destruct (dur st !! i) as [d|]; [|done].
  rewrite bind_run. destruct (mapM get_dur l st) as [st' [e|r]]; simpl in *; done.
Qed.

(** When it returns, the comprehension holds exactly the indices whose
    checkbox is set. *)
Lemma filterM_get_use_ok (l : list nat) (st : session_state) idx :
  snd (filterM get_use l st) = Ok idx →
  idx = filter (λ i, use st !! i = Some true) l.
Proof.
  revert idx. induction l as [|i l IH]; intros idx; simpl.
  - intros [= <-]. done.
  - rewrite bind_run. unfold get_use at 1.
    destruct (use st !! i) as [b|] eqn:Hb; [|done].
    rewrite bind_run.
    destruct (filterM get_use l st) as [st' [e|r]] eqn:Hr; simpl in *; [done|].
    intros [= <-]. specialize (IH r eq_refl). subst r.
    rewrite filter_cons. destruct b; case_decide; congruence.
Qed.

Lemma filterM_get_use_total (l : list nat) (st : session_state) :
  (∀ i, i ∈ l → is_Some (use st !! i)) →
  filterM get_use l st = (st, Ok (filter (λ i, use st !! i = Some true) l)).
Proof.
  intros Hl. pose proof (filterM_get_use_state l st) as Hst.
  destruct (filterM get_use l st) as [st' [e|r]] eqn:Hr; simpl in Hst; subst st'.
  - exfalso. revert e Hr. induction l as [|i l IH]; intros e; simpl; [done|].
    rewrite bind_run. unfold get_use at 1.
    destruct (Hl i) as [b Hb]; [left|]. rewrite Hb. rewrite bind_run.
    pose proof (filterM_get_use_state l st) as Hst.
    destruct (filterM get_use l st) as [st' [e'|r]] eqn:Hr; simpl in *; [|done].
    subst st'. intros _. eapply IH; [|done]. intros j Hj. apply Hl. by right.
  - f_equal. f_equal. apply (filterM_get_use_ok l st). by rewrite Hr.
Qed.

Lemma mapM_get_dur_total (l : list nat) (st : session_state) :
  (∀ i, i ∈ l → is_Some (dur st !! i)) →
  mapM get_dur l st = (st, Ok (dur_of st <$> l)).
Proof.
  induction l as [|i l IH]; intros Hl; simpl; [done|].
  rewrite bind_run. unfold get_dur at 1.
  destruct (Hl i) as [d Hd]; [left|]. rewrite Hd. rewrite bind_run.
  rewrite IH by (intros j Hj; apply Hl; by right).
  assert (dur_of st i = d) as -> by (unfold dur_of; by rewrite Hd). done.
Qed.

Lemma mapM_get_dur_ok (l : list nat) (st : session_state) ds :
  snd (mapM get_dur l st) = Ok ds → ds = dur_of st <$> l.
Proof.
  revert ds. induction l as [|i l IH]; intros ds; simpl.
  - by intros [= <-].
  - rewrite bind_run. unfold get_dur at 1.
    destruct (dur st !! i) as [d|] eqn:Hd; [|done].
    rewrite bind_run.
    destruct (mapM get_dur l st) as [st' [e|r]] eqn:Hr; simpl in *; [done|].
    intros [= <-]. rewrite (IH r eq_refl).
    assert (dur_of st i = d) as -> by (unfold dur_of; by rewrite Hd). done.
Qed.

Lemma get_selected_state (st : session_state) :
  fst (get_selected_indices_and_durations image_files st) = st.
Proof.
  unfold get_selected_indices_and_durations. rewrite bind_run.
  pose proof (filterM_get_use_state (fst <$> enumerate image_files) st) as H1.
  destruct (filterM get_use _ st) as [st1 [e|idx]]; simpl in *; [done|]. subst st1.
  rewrite bind_run. pose proof (mapM_get_dur_state idx st) as H2.
  destruct (mapM get_dur idx st) as [st2 [e|ds]]; simpl in *; done.
Qed.

Lemma get_selected_ok (st : session_state) idx ds :
  snd (get_selected_indices_and_durations image_files st) = Ok (idx, ds) →
  idx = selection image_files st ∧ ds = dur_of st <$> idx.
Proof.
  unfold get_selected_indices_and_durations. rewrite bind_run.
  pose proof (filterM_get_use_state (fst <$> enumerate image_files) st) as H1.
  pose proof (filterM_get_use_ok (fst <$> enumerate image_files) st) as H1'.
  destruct (filterM get_use _ st) as [st1 [e|idx']]; simpl in *; [done|]. subst st1.
  rewrite bind_run. pose proof (mapM_get_dur_ok idx' st) as H2.
  destruct (mapM get_dur idx' st) as [st2 [e|ds']]; simpl in *; [done|].
  intros [= <- <-]. split; [|by apply H2].
  rewrite (H1' idx' eq_refl), fst_enumerate. done.
Qed.

Lemma get_selected_raises (st : session_state) e :
  snd (get_selected_indices_and_durations image_files st) = Raise e → e = KeyError.
Proof.
  unfold get_selected_indices_and_durations. rewrite bind_run.
  assert (Hf : ∀ l e, snd (filterM get_use l st) = Raise e → e = KeyError).
  { induction l as [|i l IH]; intros e'; simpl; [done|].
    rewrite bind_run. unfold get_use at 1.
    destruct (use st !! i); [|by intros [= <-]].
    rewrite bind_run. destruct (filterM get_use l st) as [st' [e''|r]] eqn:Hr;
      simpl in *; [|done]. intros [= <-]. by apply IH. }
  assert (Hm : ∀ l st e, snd (mapM get_dur l st) = Raise e → e = KeyError).
  { clear. induction l as [|i l IH]; intros st e'; simpl; [done|].
    rewrite bind_run. unfold get_dur at 1.
    destruct (dur st !! i); [|by intros [= <-]].
    rewrite bind_run. destruct (mapM get_dur l st) as [st' [e''|r]] eqn:Hr;
      simpl in *; [|done]. intros [= <-]. eapply IH. by rewrite Hr. }
  specialize (Hf (fst <$> enumerate image_files)).
  destruct (filterM get_use _ st) as [st1 [e1|idx]]; simpl in *.
  { intros [= <-]. by apply Hf. }
  rewrite bind_run. specialize (Hm idx st1).
  destruct (mapM get_dur idx st1) as [st2 [e2|ds]]; simpl in *; [|done].
  intros [= <-]. by apply Hm.
Qed.

Lemma elem_of_selection (st : session_state) (i : nat) :
  i ∈ selection image_files st ↔ included image_files st i.
Proof.
  unfold selection, included. rewrite list_elem_of_filter, elem_of_seq. intuition lia.
Qed.

Lemma NoDup_selection (st : session_state) : NoDup (selection image_files st).
Proof. apply NoDup_filter, NoDup_seq. Qed.

Lemma get_selected_total (st : session_state) :
  initialised image_files st →
  get_selected_indices_and_durations image_files st =
    (st, Ok (selection image_files st, dur_of st <$> selection image_files st)).
Proof.
  intros Hinit. unfold get_selected_indices_and_durations.
  rewrite fst_enumerate.
  erewrite bind_ok; last first.
  { apply filterM_get_use_total. intros i Hi%elem_of_seq. apply Hinit. lia. }
  erewrite bind_ok; last first.
  { apply mapM_get_dur_total. intros i Hi%elem_of_selection. apply Hinit, Hi. }
  done.
Qed.

End Selection.

(** ** The selection against the direct recursion *)

Lemma selection_upto (st : session_state) (n : nat) :
  len (filter (λ i, use st !! i = Some true) (seq 0 n)) = count_upto st n ∧
  sum (dur_of st <$> filter (λ i, use st !! i = Some true) (seq 0 n)) = sum_upto st n.
Proof.
  induction n as [|n [IHc IHs]]; [done|].
  rewrite seq_S, filter_app, fmap_app, sum_app. simpl.
  unfold len in *. rewrite length_app, Nat2Z.inj_add, IHc, IHs.
  rewrite filter_cons, filter_nil. unfold included_b.
  case_decide; case_bool_decide; try done; simpl;
    rewrite ?sum_cons, ?sum_nil; lia.
Qed.

Lemma len_selection (image_files : list string) (st : session_state) :
  len (selection image_files st) = count_included image_files st.
Proof. apply selection_upto. Qed.

Lemma sum_selection (image_files : list string) (st : session_state) :
  sum (dur_of st <$> selection image_files st) = sum_included image_files st.
Proof. apply selection_upto. Qed.

(** ** Loops over the selection *)


Lemma frame_refl idx st : frame idx st st.
Proof. done. Qed.

Lemma frame_cons i idx st st1 st2 :
  frame [i] st st1 → frame idx st1 st2 → frame (i :: idx) st st2.
Proof.
  intros (Hu1 & Ht1 & Hd1) (Hu2 & Ht2 & Hd2). repeat split; [congruence..|].
  intros j Hj. rewrite not_elem_of_cons in Hj. destruct Hj as [Hji Hj].
  rewrite Hd2, Hd1; [done| |done]. by intros ->%list_elem_of_singleton.
Qed.

Lemma for_frame (idx : list nat) (body : nat → M session_state unit) :
  (∀ i st, frame [i] st (fst (body i st))) →
  ∀ st, frame idx st (fst (for_ idx body st)).
Proof.
  intros Hbody. induction idx as [|i idx IH]; intros st; simpl; [done|].
  rewrite bind_run. specialize (Hbody i st).
  destruct (body i st) as [st1 [e|[]]]; simpl in *.
  - destruct Hbody as (? & ? & Hd). repeat split; [done..|].
    intros j Hj. apply Hd. apply not_elem_of_cons in Hj as [Hji _].
    by intros Hin%list_elem_of_singleton.
  - eapply frame_cons; [done|]. apply IH.
Qed.

Lemma for_raises (P : exn → Prop) (idx : list nat) (body : nat → M session_state unit) :
  (∀ i st e, snd (body i st) = Raise e → P e) →
  ∀ st e, snd (for_ idx body st) = Raise e → P e.
Proof.
  intros Hbody. induction idx as [|i idx IH]; intros st e; simpl; [done|].
  rewrite bind_run. specialize (Hbody i st).
  destruct (body i st) as [st1 [e1|[]]]; simpl in *.
  - intros [= <-]. by apply Hbody.
  - apply IH.
Qed.

Lemma set_dur_frame i v st : frame [i] st (fst (set_dur i v st)).
Proof.
  repeat split. intros j Hj. simpl. apply lookup_insert_ne.
  intros ->. apply Hj. by left.
Qed.

(** The even-distribution loop: every index receives the same value. *)
Lemma for_set_dur (idx : list nat) (v : Z) (st : session_state) :
  ∃ st', for_ idx (λ i, set_dur i v) st = (st', Ok tt) ∧
         frame idx st st' ∧ ∀ i, i ∈ idx → dur st' !! i = Some v.
Proof.
  revert st. induction idx as [|i idx IH]; intros st; simpl.
  - exists st. repeat split. intros i Hi. by apply elem_of_nil in Hi.
  - rewrite bind_run. simpl.
    destruct (IH (SessionState (use st) (<[i:=v]> (dur st)) (total_duration st)))
      as (st' & Hrun & Hfr & Hv).
    exists st'. split; [done|]. split.
    + eapply frame_cons; [|done]. apply (set_dur_frame i v st).
    + intros j Hj. destruct (decide (j ∈ idx)) as [Hin|Hnin]; [by apply Hv|].
      apply elem_of_cons in Hj as [->|]; [|done].
      destruct Hfr as (_ & _ & Hd). rewrite Hd by done. simpl. apply lookup_insert_eq.
Qed.


Lemma rescale_body_run scale i st :
  rescale_body scale i st =
  match dur st !! i with
  | None => (st, Raise KeyError)
  | Some d =>
      match scaled scale d with
      | inr v => set_dur i v st
      | inl e => (st, Raise e)
      end
  end.
Proof.
  unfold rescale_body, scaled. rewrite bind_run. unfold get_dur.
  destruct (dur st !! i) as [d|]; [|done].
  rewrite bind_run. unfold lift at 1.
  destruct (Float.mul_int d scale) as [e|y]; [done|].
  rewrite bind_run. unfold lift at 1. by destruct (Float.to_int y).
Qed.

Lemma rescale_body_frame scale i st : frame [i] st (fst (rescale_body scale i st)).
Proof.
  rewrite rescale_body_run. destruct (dur st !! i) as [d|]; [|done].
  destruct (scaled scale d); [done|]. apply set_dur_frame.
Qed.

(** The proportional loop: when every iteration succeeds, every index
    receives the scaled value of its own former duration. *)
Lemma for_rescale_body (scale : Float.float) (idx : list nat) (st : session_state) :
  NoDup idx →
  (∀ i, i ∈ idx → ∃ d v, dur st !! i = Some d ∧ scaled scale d = Ok v) →
  ∃ st', for_ idx (rescale_body scale) st = (st', Ok tt) ∧
         frame idx st st' ∧
         ∀ i, i ∈ idx → ∃ d, dur st !! i = Some d ∧
                              (Ok <$> dur st' !! i) = Some (scaled scale d).
Proof.
  revert st. induction idx as [|i idx IH]; intros st Hnd Hok; simpl.
  - exists st. repeat split. intros i Hi. by apply elem_of_nil in Hi.
  - apply NoDup_cons in Hnd as [Hi Hnd]. rewrite bind_run, rescale_body_run.
    destruct (Hok i) as (d & v & Hd & Hv); [by left|]. rewrite Hd, Hv. simpl.
    set (st1 := SessionState (use st) (<[i:=v]> (dur st)) (total_duration st)).
    destruct (IH st1 Hnd) as (st' & Hrun & Hfr & Hres).
    { intros j Hj. destruct (Hok j) as (dj & vj & Hdj & Hvj); [by right|].
      exists dj, vj. split; [|done]. simpl. rewrite lookup_insert_ne; [done|].
      intros ->. done. }
    exists st'. split; [done|]. split.
    + eapply frame_cons; [|done]. apply (set_dur_frame i v st).
    + intros j Hj. apply elem_of_cons in Hj as [->|Hj].
      * exists d. split; [done|]. destruct Hfr as (_ & _ & Hfr).
        rewrite Hfr by done. simpl. by rewrite lookup_insert_eq, Hv.
      * destruct (Hres j Hj) as (dj & Hdj & Hrj). exists dj. split; [|done].
        simpl in Hdj. rewrite lookup_insert_ne in Hdj; [done|]. by intros ->.
Qed.

(** ** The callbacks, unfolded *)

Lemma rescale_unfold image_files st :
  rescale_individual_durations image_files st =
  match get_selected_indices_and_durations image_files st with
  | (st', inl e) => (st', Raise e)
  | (st', inr (indices, durations)) =>
      if negb (truthy indices) then (st', Ok tt)
      else if (sum durations =? 0)%Z then
        match (if truthy indices
               then floordiv (total_duration st') (len indices)
               else Ok 0%Z) with
        | inr new_duration => for_ indices (λ i, set_dur i new_duration) st'
        | inl e => (st', Raise e)
        end
      else
        match Float.truediv (total_duration st') (sum durations) with
        | inr scale => for_ indices (rescale_body scale) st'
        | inl e => (st', Raise e)
        end
  end.
Proof.
  unfold rescale_individual_durations. rewrite bind_run.
  destruct (get_selected_indices_and_durations image_files st)
    as [st' [e|[indices durations]]]; [done|].
  destruct (negb (truthy indices)); [done|].
  rewrite bind_run. unfold gets at 1.
  destruct (sum durations =? 0)%Z.
  - rewrite bind_run. unfold lift at 1.
    by destruct (if truthy indices then _ else _).
  - rewrite bind_run. unfold lift at 1.
    by destruct (Float.truediv _ _).
Qed.

Lemma update_total_unfold image_files st :
  update_total_duration image_files st =
  match get_selected_indices_and_durations image_files st with
  | (st', inl e) => (st', Raise e)
  | (st', inr (_, durations)) => set_total_duration (sum durations) st'
  end.
Proof.
  unfold update_total_duration. rewrite bind_run.
  by destruct (get_selected_indices_and_durations image_files st)
    as [st' [e|[indices durations]]].
Qed.

(** ** The initial session *)

Lemma init_item_keys (i : nat) (st : session_state) :
  ∃ st', (_ ← init_use i; init_dur i) st = (st', Ok tt) ∧
         has_keys st' i ∧ ∀ j, has_keys st j → has_keys st' j.
Proof.
  rewrite bind_run. unfold init_use, init_dur, modify, has_keys.
  destruct (use st !! i) as [b|] eqn:Hu; destruct (dur st !! i) as [d|] eqn:Hd;
    simpl; rewrite ?Hd; eexists; (split; [reflexivity|]); simpl;
    (split; [split; rewrite ?lookup_insert_eq; eauto|]);
    intros j [Hju Hjd]; (split; [|]);
    try done;
    (destruct (decide (i = j)) as [->|Hne];
     [rewrite lookup_insert_eq; eauto|by rewrite lookup_insert_ne]).
Qed.

Lemma for_init_keys (l : list (nat * string)) (st : session_state) :
  ∃ st', for_ l (λ '(i, path), _ ← init_use i; init_dur i) st = (st', Ok tt) ∧
         (∀ j, has_keys st j → has_keys st' j) ∧
         ∀ i, i ∈ l.*1 → has_keys st' i.
Proof.
  revert st. induction l as [|[i path] l IH]; intros st.
  - exists st. split; [done|]. split; [done|]. intros i Hi. by apply elem_of_nil in Hi.
  - destruct (init_item_keys i st) as (st1 & Hrun1 & Hi1 & Hmono1).
    destruct (IH st1) as (st' & Hrun & Hmono & Hall).
    exists st'. split; [by rewrite for_cons, Hrun1|]. split; [by auto|].
    intros j Hj. rewrite fmap_cons in Hj. apply elem_of_cons in Hj as [->|Hj]; auto.
Qed.

(** After the module-level loop every key the callbacks read is there. *)
Lemma initialise_session_initialised (image_files : list string) (st : session_state) :
  ∃ st', initialise_session image_files st = (st', Ok tt) ∧
         initialised image_files st'.
Proof.
  destruct (for_init_keys (enumerate image_files) st) as (st' & Hrun & _ & Hall).
  exists st'. split; [done|]. intros i Hi. apply Hall.
  rewrite fst_enumerate, elem_of_seq. lia.
Qed.

(** ** Properties of the duration allocator *)

Lemma truthy_selection image_files st :
  (∃ i, included image_files st i) → truthy (selection image_files st) = true.
Proof.
  intros [i Hi%elem_of_selection].
  destruct (selection image_files st); [by apply elem_of_nil in Hi|done].
Qed.

Lemma selection_nil image_files st :
  (∀ i, ¬ included image_files st i) → selection image_files st = [].
Proof.
  intros Hno. destruct (selection image_files st) as [|i l] eqn:Hs; [done|].
  exfalso. apply (Hno i), elem_of_selection. rewrite Hs. by left.
Qed.

Lemma count_included_pos image_files st :
  (∃ i, included image_files st i) → (0 < count_included image_files st)%Z.
Proof.
  intros H%truthy_selection. rewrite <- len_selection.
  destruct (selection image_files st); [done|]. unfold len. simpl. lia.
Qed.

(** C6. [update_total_duration] stores exactly the sum of the durations
    of the included items, and 0 when no item is included. *)
Theorem update_total_duration_sum image_files st :
  initialised image_files st →
  update_total_duration image_files st =
    (SessionState (use st) (dur st) (sum_included image_files st), Ok tt) ∧
  ((∀ i, ¬ included image_files st i) →
   total_duration (fst (update_total_duration image_files st)) = 0%Z).
Proof.
  intros Hinit. rewrite update_total_unfold, get_selected_total by done.
  rewrite sum_selection. split; [done|].
  intros Hno. simpl. rewrite <- sum_selection, selection_nil by done. done.
Qed.

(** C5. When the included durations sum to 0 and [N >= 1] items are
    included, every included item receives [T // N], the remainder being
    dropped. *)
Theorem rescale_zero_total_even image_files st :
  initialised image_files st →
  (∃ i, included image_files st i) →
  sum_included image_files st = 0%Z →
  ∃ st', rescale_individual_durations image_files st = (st', Ok tt) ∧
         ∀ i, included image_files st i →
              dur st' !! i =
                Some (total_duration st `div` count_included image_files st)%Z.
Proof.
  intros Hinit Hex Hsum.
  rewrite rescale_unfold, get_selected_total by done.
  rewrite sum_selection, Hsum, truthy_selection by done. simpl.
  unfold floordiv. rewrite len_selection.
  pose proof (count_included_pos _ _ Hex) as Hpos.
  destruct (Z.eqb_spec (count_included image_files st) 0) as [?|_]; [lia|].
  destruct (for_set_dur (selection image_files st)
              (total_duration st `div` count_included image_files st)%Z st)
    as (st' & Hrun & _ & Hv).
  exists st'. split; [done|]. intros i Hi%elem_of_selection. by apply Hv.
Qed.

(** C8. In both branches of the rescale (and also when it raises), the
    duration of every item that is not included is left as it was, and so
    are all checkboxes. *)
Theorem rescale_excluded_unchanged image_files st i :
  ¬ included image_files st i →
  dur (fst (rescale_individual_durations image_files st)) !! i = dur st !! i ∧
  use (fst (rescale_individual_durations image_files st)) = use st.
Proof.
  intros Hi. rewrite rescale_unfold.
  pose proof (get_selected_state image_files st) as Hst.
  pose proof (get_selected_ok image_files st) as Hok.
  destruct (get_selected_indices_and_durations image_files st)
    as [st' [e|[indices durations]]]; simpl in Hst; subst st'; [done|].
  destruct (Hok _ _ eq_refl) as [-> _].
  assert (Hni : i ∉ selection image_files st) by by rewrite elem_of_selection.
  destruct (negb _); [done|].
  destruct (_ =? _)%Z.
  - destruct (if truthy _ then _ else _) as [e|v]; [done|].
    destruct (for_frame (selection image_files st) (λ i, set_dur i v)
                (λ j st0, set_dur_frame j v st0) st) as (Hu & _ & Hd).
    split; [by apply Hd|done].
  - destruct (Float.truediv _ _) as [e|scale]; [done|].
    destruct (for_frame (selection image_files st) (rescale_body scale)
                (rescale_body_frame scale) st) as (Hu & _ & Hd).
    split; [by apply Hd|done].
Qed.

Lemma scaled_raises scale d e :
  scaled scale d = Raise e → e ≠ ZeroDivisionError.
Proof.
  unfold scaled, Float.mul_int, Float.of_int, Float.finite_or_overflow, Float.to_int.
  destruct (binary_normalize _ _ _ _ _); try (intros [= <-]; done).
  - destruct (SFmul _ _ _ _); intros [= <-] || intros [=]; done.
  - destruct (SFmul _ _ _ _); intros [= <-] || intros [=]; done.
Qed.

Lemma truediv_raises a b e :
  b ≠ 0%Z → Float.truediv a b = Raise e → e ≠ ZeroDivisionError.
Proof.
  intros Hb. unfold Float.truediv, Float.finite_or_overflow.
  destruct (Z.eqb_spec b 0) as [?|_]; [done|].
  destruct (SFdiv _ _ _ _); intros [= <-] || intros [=]; done.
Qed.

(** C10. A rescale with no included item returns at once and changes
    nothing; and no rescale ever divides by zero: the callback never
    raises [ZeroDivisionError], whatever the session state. *)
Theorem rescale_nothing_included image_files st :
  snd (rescale_individual_durations image_files st) ≠ Raise ZeroDivisionError ∧
  ((∀ i, (i < length image_files)%nat → use st !! i = Some false) →
   rescale_individual_durations image_files st = (st, Ok tt)).
Proof.
  split.
  - rewrite rescale_unfold.
    pose proof (get_selected_raises image_files st) as Hr.
    destruct (get_selected_indices_and_durations image_files st)
      as [st' [e|[indices durations]]]; simpl in *.
    { intros [= ->]. by specialize (Hr _ eq_refl). }
    destruct indices as [|i0 indices]; [done|]. simpl.
    destruct (Z.eqb_spec (sum durations) 0) as [Hz|Hnz].
    + unfold floordiv, len. simpl length.
      destruct (Z.eqb_spec (Z.of_nat (S (length indices))) 0) as [?|_]; [lia|].
      intros H. by apply (for_raises (λ e, False) (i0 :: indices)
                            (λ i, set_dur i _)) in H.
    + destruct (Float.truediv _ _) as [e|scale] eqn:Hdiv; simpl.
      * intros [= ->]. by eapply truediv_raises.
      * intros H.
        apply (for_raises (λ e, e ≠ ZeroDivisionError) (i0 :: indices)
                 (rescale_body scale)) in H; [done|].
        intros i st0 e. rewrite rescale_body_run.
        destruct (dur st0 !! i) as [d|]; [|by intros [= <-]].
        destruct (scaled scale d) as [e'|v] eqn:Hs; [|done].
        intros [= <-]. by eapply scaled_raises.
  - intros Hno. rewrite rescale_unfold.
    unfold get_selected_indices_and_durations. rewrite fst_enumerate.
    erewrite bind_ok; last first.
    { apply filterM_get_use_total. intros i Hi%elem_of_seq.
      rewrite Hno by lia. done. }
    assert (filter (λ i, use st !! i = Some true) (seq 0 (length image_files)) = [])
      as ->.
    { apply (selection_nil image_files st). intros i [Hlt Hi].
      rewrite Hno in Hi by done. done. }
    done.
Qed.

(** ** The allocator on concrete sessions *)

Ltac three_indices i :=
  destruct i as [|[|[|i]]]; simpl in *; try lia.

Lemma update_total_duration_sum_witness :
  update_total_duration three_files default_session =
    (SessionState (use default_session) (dur default_session) 400, Ok tt).
Proof.
  apply (update_total_duration_sum three_files default_session).
  intros i Hi. three_indices i; split; eexists; reflexivity.
Defined.

Lemma rescale_zero_total_even_witness :
  ∃ st', rescale_individual_durations three_files zero_session = (st', Ok tt) ∧
         ∀ i, included three_files zero_session i → dur st' !! i = Some 57%Z.
Proof.
  apply (rescale_zero_total_even three_files zero_session).
  - intros i Hi. three_indices i; split; eexists; reflexivity.
  - exists 0%nat. split; [simpl; lia|reflexivity].
  - reflexivity.
Defined.

Lemma rescale_excluded_unchanged_witness :
  dur (fst (rescale_individual_durations three_files default_session)) !! 1%nat
    = Some 200%Z ∧
  use (fst (rescale_individual_durations three_files default_session))
    = use default_session.
Proof.
  apply (rescale_excluded_unchanged three_files default_session 1).
  intros [_ H]. vm_compute in H. discriminate H.
Defined.

Lemma rescale_nothing_included_witness :
  rescale_individual_durations three_files empty_session = (empty_session, Ok tt).
Proof.
  apply (rescale_nothing_included three_files empty_session).
  intros i Hi. three_indices i; reflexivity.
Defined.

(** ** Running the video assembler *)

Lemma fps_run : Float.div_int (Float.const 1000) 40 = Ok fps_25.
Proof. vm_compute. reflexivity. Qed.

Lemma max_Zmax (a b : Z) : max a b = Z.max a b.
Proof. unfold max. destruct (Z.ltb_spec a b); lia. Qed.

Lemma length_range (n : Z) : length (range n) = Z.to_nat n.
Proof. unfold range. by rewrite length_fmap, length_seq. Qed.

(** One more frame for the writer. *)
Lemma append_data_run (w : world) (out : string) (fs : list image) (img : image) :
  append_data img (running w out fs) = (running w out (fs ++ [img]), Ok tt).
Proof.
  unfold append_data, running, write_file. destruct fs as [|f fs]; simpl; [done|].
  by rewrite insert_insert_eq.
Qed.

(** The inner loop appends one copy of the image per iteration. *)
Lemma for_append_data {A} (l : list A) (img : image) (w : world) (out : string)
    (fs : list image) :
  for_ l (λ _, append_data img) (running w out fs) =
    (running w out (fs ++ replicate (length l) img), Ok tt).
Proof.
  revert fs. induction l as [|x l IH]; intros fs.
  - simpl. by rewrite app_nil_r.
  - rewrite for_cons, append_data_run, IH. simpl. by rewrite <- app_assoc.
Qed.

Lemma on_world_imread (path : string) (w : world) (out : string) (fs : list image) :
  on_world (imread path) (running w out fs) =
    (running w out fs,
     match images w !! path with
     | Some img => Ok img
     | None => Raise FileNotFoundError
     end).
Proof.
  unfold on_world, imread, running.
  destruct fs; simpl; by destruct (images w !! path).
Qed.

Lemma assemble_body_run (it : item) (w : world) (out : string) (fs : list image) :
  images w !! item_path it = Some (item_image it) →
  assemble_body (item_path it, item_duration it) (running w out fs) =
    (running w out (fs ++ replicate (repeat_count (item_duration it)) (item_image it)),
     Ok tt).
Proof.
  intros Hi. unfold assemble_body. rewrite bind_run, on_world_imread, Hi.
  rewrite bind_run. unfold lift at 1, floordiv. simpl.
  rewrite for_append_data. by rewrite length_range, max_Zmax.
Qed.

(** The outer loop hands the writer the expected frames, in order. *)
Lemma for_assemble_body (items : list item) (w : world) (out : string)
    (fs : list image) :
  loaded w items →
  for_ ((λ it, (item_path it, item_duration it)) <$> items) assemble_body
       (running w out fs) =
    (running w out (fs ++ expected_frames items), Ok tt).
Proof.
  revert fs. induction items as [|it items IH]; intros fs Hl.
  - simpl. by rewrite app_nil_r.
  - apply Forall_cons in Hl as [Hit Hl]. rewrite fmap_cons, for_cons.
    rewrite assemble_body_run by done. rewrite IH by done.
    change (expected_frames (it :: items)) with
      (replicate (repeat_count (item_duration it)) (item_image it)
         ++ expected_frames items).
    by rewrite <- app_assoc.
Qed.

(** Closing, or releasing, the writer finishes the file it has started. *)
Lemma close_running (w : world) (out : string) (fs : list image) :
  close (running w out fs) = ((written w out fs, Writer out fps_25 fs), Ok tt).
Proof.
  unfold close, running, written, assembled, write_file.
  destruct fs as [|f fs]; simpl; [done|]. by rewrite insert_insert_eq.
Qed.

Lemma close_closed (w : world) (out : string) (fs : list image) :
  close (written w out fs, Writer out fps_25 fs) =
    ((written w out fs, Writer out fps_25 fs), Ok tt).
Proof.
  unfold close, written, assembled, write_file.
  destruct fs as [|f fs]; simpl; [done|]. by rewrite insert_insert_eq.
Qed.

Lemma zip_items_extra (items : list item) (extra_paths : list string)
    (extra_durations : list Z) :
  extra_paths = [] ∨ extra_durations = [] →
  zip ((item_path <$> items) ++ extra_paths)
      ((item_duration <$> items) ++ extra_durations) =
  (λ it, (item_path it, item_duration it)) <$> items.
Proof.
  intros Hex. induction items as [|it items IH]; simpl.
  - destruct Hex as [-> | ->]; [done|]. by destruct extra_paths.
  - f_equal. exact IH.
Qed.

Lemma accepted_truthy (durations : list Z) :
  accepted durations → truthy (filter (λ d, 0 < d)%Z durations) = true.
Proof.
  intros (d & Hd & Hpos).
  assert (Hin : d ∈ filter (λ d, 0 < d)%Z durations) by by apply list_elem_of_filter.
  destruct (filter _ durations); [by apply elem_of_nil in Hin|done].
Qed.

Lemma not_accepted_truthy (durations : list Z) :
  Forall (λ d, d ≤ 0)%Z durations → truthy (filter (λ d, 0 < d)%Z durations) = false.
Proof.
  intros Hall. destruct (filter _ durations) as [|d l] eqn:Hf; [done|].
  assert (Hin : d ∈ filter (λ d, 0 < d)%Z durations) by (rewrite Hf; by left).
  apply list_elem_of_filter in Hin as [Hpos Hin].
  rewrite Forall_forall in Hall. specialize (Hall d Hin). simpl in Hall. lia.
Qed.

Lemma generate_video_unfold image_paths durations output_path w :
  generate_video image_paths durations output_path w =
  if negb (truthy (filter (λ d, 0 < d)%Z durations)) then
    st_error zero_duration_message w
  else
    with_local (Writer output_path fps_25 [])
      (_ ← for_ (zip image_paths durations) assemble_body; close) w.
Proof.
  unfold generate_video. destruct (negb _); [done|].
  rewrite bind_run. unfold lift at 1. rewrite fps_run. done.
Qed.

(** A call that passes the validity check and can read its images hands
    the writer the expected frames of the zipped pairs and closes it; what
    one sequence has beyond the other is not looked at. *)
Lemma generate_video_run (w : world) (items : list item)
    (extra_paths : list string) (extra_durations : list Z) (out : string) :
  loaded w items →
  accepted ((item_duration <$> items) ++ extra_durations) →
  extra_paths = [] ∨ extra_durations = [] →
  generate_video ((item_path <$> items) ++ extra_paths)
                 ((item_duration <$> items) ++ extra_durations) out w =
    (written w out (expected_frames items), Ok tt).
Proof.
  intros Hl Hacc Hex. rewrite generate_video_unfold, accepted_truthy by done.
  simpl negb. cbv iota. rewrite zip_items_extra by done.
  unfold with_local. rewrite bind_run.
  change (w, Writer out fps_25 []) with (running w out []).
  rewrite for_assemble_body by done. simpl app.
  rewrite close_running. by rewrite close_closed.
Qed.

(** ** Properties of the video assembler *)

Lemma expected_frames_app (l k : list item) :
  expected_frames (l ++ k) = expected_frames l ++ expected_frames k.
Proof. unfold expected_frames. apply bind_app. Qed.

Lemma expected_frames_cons (it : item) (l : list item) :
  expected_frames (it :: l) =
  replicate (repeat_count (item_duration it)) (item_image it) ++ expected_frames l.
Proof. reflexivity. Qed.

Lemma repeat_count_nonpositive (d : Z) : (d ≤ 0)%Z → repeat_count d = 1%nat.
Proof.
  intros Hd. unfold repeat_count.
  assert (d `div` 40 ≤ 0)%Z by (apply Z.div_le_upper_bound; lia).
  rewrite Z.max_l by lia. reflexivity.
Qed.

Lemma repeat_count_positive (d : Z) : (1 ≤ repeat_count d)%nat.
Proof. unfold repeat_count. lia. Qed.

(** Every item gives a frame: only the empty sequence gives none. *)
Lemma expected_frames_nil (items : list item) :
  expected_frames items = [] ↔ items = [].
Proof.
  split; [|by intros ->]. destruct items as [|it items]; [done|].
  rewrite expected_frames_cons. pose proof (repeat_count_positive (item_duration it)).
  destruct (repeat_count (item_duration it)); [lia|done].
Qed.

Lemma written_frames (w : world) (out : string) (items : list item) :
  items ≠ [] →
  written w out (expected_frames items) = assembled w out (expected_frames items).
Proof.
  intros Hne. destruct (expected_frames items) eqn:Hfs; [|done].
  by apply expected_frames_nil in Hfs.
Qed.

Lemma accepted_nonempty (items : list item) :
  accepted (item_duration <$> items) → items ≠ [].
Proof. intros (d & Hd & _) ->. by apply elem_of_nil in Hd. Qed.

(** A call on the pairs of an accepted sequence whose images can be read
    leaves the finished file of the expected frames. *)
Lemma generate_video_complete (w : world) (items : list item) (out : string) :
  loaded w items → accepted (item_duration <$> items) →
  generate_video (item_path <$> items) (item_duration <$> items) out w =
    (assembled w out (expected_frames items), Ok tt).
Proof.
  intros Hl Hacc.
  pose proof (generate_video_run w items [] [] out Hl) as Hrun.
  rewrite !app_nil_r in Hrun. rewrite Hrun; [|done|by left].
  by rewrite written_frames by by apply accepted_nonempty.
Qed.

(** C2. An accepted sequence of pairs is written in input order, each
    image [max(1, duration_ms // 40)] times; [(A, 90), (B, 40)] gives the
    three frames A, A, B and [(A, 10)] gives one frame. *)
Theorem generate_video_frames :
  (∀ w items out,
     loaded w items → accepted (item_duration <$> items) →
     generate_video (item_path <$> items) (item_duration <$> items) out w =
       (assembled w out (expected_frames items), Ok tt)) ∧
  (∀ w pa pb A B out,
     images w !! pa = Some A → images w !! pb = Some B →
     generate_video [pa; pb] [90; 40]%Z out w =
       (assembled w out [A; A; B], Ok tt)) ∧
  (∀ w pa A out,
     images w !! pa = Some A →
     generate_video [pa] [10]%Z out w = (assembled w out [A], Ok tt)).
Proof.
  assert (Hgen : ∀ w items out,
     loaded w items → accepted (item_duration <$> items) →
     generate_video (item_path <$> items) (item_duration <$> items) out w =
       (assembled w out (expected_frames items), Ok tt)).
  { intros w items out Hl Hacc. by apply generate_video_complete. }
  split; [exact Hgen|]. split.
  - intros w pa pb A B out HA HB.
    apply (Hgen w [Item pa A 90; Item pb B 40] out).
    + repeat constructor; done.
    + exists 90%Z. split; [by left|lia].
  - intros w pa A out HA.
    apply (Hgen w [Item pa A 10] out).
    + repeat constructor; done.
    + exists 10%Z. split; [by left|lia].
Qed.

Lemma generate_video_frames_witness :
  generate_video ["a.png"; "b.png"] [90; 40]%Z "output.mp4" two_images =
    (assembled two_images "output.mp4" [image_A; image_A; image_B], Ok tt).
Proof.
  apply (proj1 generate_video_frames two_images
           [Item "a.png" image_A 90; Item "b.png" image_B 40] "output.mp4").
  - repeat constructor.
  - exists 90%Z. split; [by left|lia].
Defined.

(** C3. When every duration is at most 0, and in particular when there
    is no duration at all, the call shows the message and returns: no
    writer is opened, and the video files, the one at the output path
    included, are what they were. *)
Theorem generate_video_rejects :
  (∀ w image_paths durations out,
     Forall (λ d, d ≤ 0)%Z durations →
     generate_video image_paths durations out w = (rejected w, Ok tt) ∧
     videos (fst (generate_video image_paths durations out w)) = videos w ∧
     errors (fst (generate_video image_paths durations out w)) =
       errors w ++ [zero_duration_message]) ∧
  (∀ w image_paths out,
     generate_video image_paths [] out w = (rejected w, Ok tt)).
Proof.
  assert (Hgen : ∀ w image_paths durations out,
     Forall (λ d, d ≤ 0)%Z durations →
     generate_video image_paths durations out w = (rejected w, Ok tt)).
  { intros w image_paths durations out Hall.
    rewrite generate_video_unfold, not_accepted_truthy by done. done. }
  split.
  - intros w image_paths durations out Hall. rewrite Hgen by done. done.
  - intros w image_paths out. apply Hgen. constructor.
Qed.

Lemma generate_video_rejects_witness :
  generate_video ["a.png"; "b.png"] [0; -5]%Z "output.mp4" two_images =
    (rejected two_images, Ok tt) ∧
  videos (fst (generate_video ["a.png"; "b.png"] [0; -5]%Z "output.mp4" two_images))
    = videos two_images ∧
  errors (fst (generate_video ["a.png"; "b.png"] [0; -5]%Z "output.mp4" two_images))
    = errors two_images ++ [zero_duration_message].
Proof.
  apply (proj1 generate_video_rejects two_images ["a.png"; "b.png"] [0; -5]%Z
           "output.mp4").
  repeat constructor; lia.
Defined.

(** C7. A sequence with some positive duration is not rejected, and an
    item of it whose duration is at most 0 is iterated like the others and
    gives exactly one frame, at its place in the output. *)
Theorem generate_video_nonpositive_item w pre it post out :
  loaded w (pre ++ it :: post) →
  accepted (item_duration <$> pre ++ it :: post) →
  (item_duration it ≤ 0)%Z →
  generate_video (item_path <$> pre ++ it :: post)
                 (item_duration <$> pre ++ it :: post) out w =
    (assembled w out (expected_frames pre ++ [item_image it] ++ expected_frames post),
     Ok tt).
Proof.
  intros Hl Hacc Hd. rewrite generate_video_complete by done.
  rewrite expected_frames_app, expected_frames_cons, repeat_count_nonpositive by done.
  done.
Qed.

Lemma generate_video_nonpositive_item_witness :
  generate_video ["a.png"; "b.png"; "a.png"] [90; -40; 0]%Z "output.mp4" two_images =
    (assembled two_images "output.mp4" [image_A; image_A; image_B; image_A], Ok tt).
Proof.
  apply (generate_video_nonpositive_item two_images
           [Item "a.png" image_A 90] (Item "b.png" image_B (-40))
           [Item "a.png" image_A 0] "output.mp4").
  - repeat constructor.
  - exists 90%Z. split; [by left|lia].
  - simpl. lia.
Defined.

(** C9. Of two sequences of different lengths only the pairs of the
    zip are processed, what the longer one has beyond them is ignored
    without a message, though the validity check reads all durations: the
    call leaves what a call on the zipped pairs alone leaves.  In
    particular, with no image path and some positive duration, the check
    passes, no frame is written and no file is made: the call returns with
    the world as it was, the file at the output path, if there is one,
    included. *)
Theorem generate_video_unequal_lengths :
  (∀ w items extra_paths extra_durations out,
     loaded w items →
     accepted ((item_duration <$> items) ++ extra_durations) →
     extra_paths = [] ∨ extra_durations = [] →
     generate_video ((item_path <$> items) ++ extra_paths)
                    ((item_duration <$> items) ++ extra_durations) out w =
       (match items with
        | [] => w
        | _ :: _ => assembled w out (expected_frames items)
        end, Ok tt)) ∧
  (∀ w durations out,
     accepted durations →
     generate_video [] durations out w = (w, Ok tt) ∧
     videos (fst (generate_video [] durations out w)) !! out = videos w !! out).
Proof.
  assert (Hgen : ∀ w items extra_paths extra_durations out,
     loaded w items →
     accepted ((item_duration <$> items) ++ extra_durations) →
     extra_paths = [] ∨ extra_durations = [] →
     generate_video ((item_path <$> items) ++ extra_paths)
                    ((item_duration <$> items) ++ extra_durations) out w =
       (match items with
        | [] => w
        | _ :: _ => assembled w out (expected_frames items)
        end, Ok tt)).
  { intros w items extra_paths extra_durations out Hl Hacc Hex.
    rewrite generate_video_run by done.
    destruct items as [|it items]; [done|]. by rewrite written_frames. }
  split; [exact Hgen|].
  intros w durations out Hacc.
  pose proof (Hgen w [] [] durations out) as Hrun.
  simpl in Hrun. rewrite Hrun; [done|constructor|done|by left].
Qed.

Lemma generate_video_unequal_lengths_witness :
  generate_video ["a.png"] [0; 50]%Z "output.mp4" two_images =
    (assembled two_images "output.mp4" [image_A], Ok tt) ∧
  generate_video [] [50]%Z "output.mp4" two_images = (two_images, Ok tt).
Proof.
  split.
  - apply (proj1 generate_video_unequal_lengths two_images
             [Item "a.png" image_A 0] [] [50]%Z "output.mp4").
    + repeat constructor.
    + exists 50%Z. split; [by right; left|lia].
    + by left.
  - apply (proj2 generate_video_unequal_lengths two_images [50]%Z "output.mp4").
    exists 50%Z. split; [by left|lia].
Defined.

(** With no image path and a positive duration the call does not leave a
    file of zero frames at the output path: the video that was there is
    still there, with its frame. *)
Lemma generate_video_keeps_prior_output :
  generate_video [] [50]%Z "output.mp4" two_images = (two_images, Ok tt) ∧
  videos (fst (generate_video [] [50]%Z "output.mp4" two_images)) !! "output.mp4" =
    Some (Video fps_25 [image_B] true) ∧
  videos (fst (generate_video [] [50]%Z "output.mp4" two_images)) !! "output.mp4" ≠
    Some (Video fps_25 [] true).
Proof.
  assert (H : generate_video [] [50]%Z "output.mp4" two_images = (two_images, Ok tt)).
  { pose proof (generate_video_run two_images [] [] [50]%Z "output.mp4") as Hrun.
    apply Hrun; [constructor| |by left].
    exists 50%Z. split; [by left|lia]. }
  rewrite H. split; [done|]. split; [reflexivity|]. simpl. discriminate.
Qed.

(** ** Powers of two *)

Section Bpow.

Local Open Scope R_scope.

Lemma bpow_pos (e : Z) : 0 < bpow e.
Proof. apply powerRZ_lt. lra. Qed.

Lemma bpow_add (a b : Z) : bpow (a + b) = bpow a * bpow b.
Proof. apply powerRZ_add. lra. Qed.

Lemma bpow_0 : bpow 0 = 1.
Proof. reflexivity. Qed.

Lemma bpow_1 : bpow 1 = 2.
Proof. unfold bpow. simpl. lra. Qed.

Lemma bpow_opp (e : Z) : bpow (- e) = / bpow e.
Proof. apply powerRZ_neg'. Qed.

Lemma bpow_succ (e : Z) : bpow (e + 1) = 2 * bpow e.
Proof. rewrite bpow_add, bpow_1. lra. Qed.

Lemma bpow_pred (e : Z) : bpow (e - 1) = / 2 * bpow e.
Proof.
  replace (e - 1)%Z with (e + - (1))%Z by lia.
  rewrite bpow_add, bpow_opp, bpow_1. lra.
Qed.

Lemma bpow_IZR (e : Z) : (0 <= e)%Z → bpow e = IZR (2 ^ e).
Proof.
  intros He. rewrite <- (Z2Nat.id e He). unfold bpow.
  rewrite <- pow_powerRZ, <- pow_IZR. reflexivity.
Qed.

Lemma bpow_ge_1 (e : Z) : (0 <= e)%Z → 1 <= bpow e.
Proof.
  intros He. rewrite bpow_IZR by done. apply IZR_le.
  pose proof (Z.pow_pos_nonneg 2 e). lia.
Qed.

Lemma bpow_le (a b : Z) : (a <= b)%Z → bpow a <= bpow b.
Proof.
  intros Hab. replace b with (a + (b - a))%Z by lia. rewrite bpow_add.
  pose proof (bpow_pos a). pose proof (bpow_ge_1 (b - a) ltac:(lia)). nra.
Qed.

Lemma bpow_lt (a b : Z) : (a < b)%Z → bpow a < bpow b.
Proof.
  intros Hab. pose proof (bpow_le (a + 1) b ltac:(lia)) as H.
  rewrite bpow_succ in H. pose proof (bpow_pos a). lra.
Qed.

Lemma F2R_shift (m e k : Z) : (0 <= k)%Z → F2R (m * 2 ^ k) e = F2R m (e + k).
Proof.
  intros Hk. unfold F2R. rewrite mult_IZR, bpow_add, <- bpow_IZR by done. lra.
Qed.

End Bpow.

(** ** Binary digits *)

Lemma digits2_pos_bounds (p : positive) :
  (2 ^ (Zpos (digits2_pos p) - 1) ≤ Zpos p < 2 ^ Zpos (digits2_pos p))%Z.
Proof.
  induction p as [p IH|p IH|]; simpl digits2_pos.
  - rewrite Pos2Z.inj_succ.
    replace (Z.succ (Zpos (digits2_pos p)) - 1)%Z with
      (Z.succ (Zpos (digits2_pos p) - 1))%Z by lia.
    rewrite !Z.pow_succ_r by lia. lia.
  - rewrite Pos2Z.inj_succ.
    replace (Z.succ (Zpos (digits2_pos p)) - 1)%Z with
      (Z.succ (Zpos (digits2_pos p) - 1))%Z by lia.
    rewrite !Z.pow_succ_r by lia. lia.
  - simpl. lia.
Qed.

Lemma Zdigits2_bounds (m : Z) :
  (0 < m)%Z → (2 ^ (Zdigits2 m - 1) ≤ m < 2 ^ Zdigits2 m)%Z ∧ (0 < Zdigits2 m)%Z.
Proof.
  destruct m as [|p|p]; try lia. intros _. simpl.
  split; [apply digits2_pos_bounds|lia].
Qed.

Lemma Zdigits2_le (m k : Z) : (0 < m)%Z → (m < 2 ^ k)%Z → (Zdigits2 m ≤ k)%Z.
Proof.
  intros Hm Hk. destruct (Zdigits2_bounds m Hm) as [[Hlo _] Hd].
  destruct (Z.le_gt_cases (Zdigits2 m) k) as [|Hgt]; [done|].
  assert (2 ^ k ≤ 2 ^ (Zdigits2 m - 1))%Z by (apply Z.pow_le_mono_r; lia). lia.
Qed.

Lemma Zdigits2_ge (m k : Z) : (0 < m)%Z → (2 ^ (k - 1) ≤ m)%Z → (k ≤ Zdigits2 m)%Z.
Proof.
  intros Hm Hk. destruct (Zdigits2_bounds m Hm) as [[_ Hhi] Hd].
  destruct (Z.le_gt_cases k (Zdigits2 m)) as [|Hgt]; [done|].
  assert (2 ^ Zdigits2 m ≤ 2 ^ (k - 1))%Z by (apply Z.pow_le_mono_r; lia). lia.
Qed.

Lemma Zdigits2_unique (m k : Z) :
  (2 ^ (k - 1) ≤ m < 2 ^ k)%Z → (0 < m)%Z → Zdigits2 m = k.
Proof.
  intros [Hlo Hhi] Hm.
  pose proof (Zdigits2_le m k Hm Hhi). pose proof (Zdigits2_ge m k Hm Hlo). lia.
Qed.

(** ** Shifting and rounding a located value *)

Section Shift.

Local Open Scope R_scope.

Lemma IZR_xO (p : positive) : IZR (Zpos p~0) = 2 * IZR (Zpos p).
Proof. replace (Zpos p~0) with (2 * Zpos p)%Z by lia. apply mult_IZR. Qed.

Lemma IZR_xI (p : positive) : IZR (Zpos p~1) = 2 * IZR (Zpos p) + 1.
Proof.
  replace (Zpos p~1) with (2 * Zpos p + 1)%Z by lia.
  rewrite plus_IZR, mult_IZR. reflexivity.
Qed.

(** One shift halves the located value. *)
Lemma shr_1_located (mrs : shr_record) (x : R) :
  (0 <= shr_m mrs)%Z → located mrs x →
  located (shr_1 mrs) (x / 2) ∧ (0 <= shr_m (shr_1 mrs))%Z.
Proof.
  destruct mrs as [m r s]. unfold located. cbn [shr_m shr_r shr_s].
  intros Hm Hx. destruct m as [|[p|p|]|p]; try lia;
    destruct r, s; cbn [shr_1 shr_m shr_r shr_s orb];
    rewrite ?(IZR_xO p), ?(IZR_xI p) in Hx; split; try lia; lra.
Qed.

Lemma iter_shr_1_located (p : positive) :
  ∀ (mrs : shr_record) (x : R),
    (0 <= shr_m mrs)%Z → located mrs x →
    located (SpecFloat.iter_pos shr_1 p mrs) (x * bpow (- Zpos p)) ∧
    (0 <= shr_m (SpecFloat.iter_pos shr_1 p mrs))%Z.
Proof.
  assert (Hhalf : bpow (-1) = / 2) by (unfold bpow; simpl; lra).
  induction p as [p IH|p IH|]; intros mrs x Hm Hx; cbn [SpecFloat.iter_pos].
  - destruct (shr_1_located mrs x Hm Hx) as [H1 H1m].
    destruct (IH _ _ H1m H1) as [H2 H2m].
    destruct (IH _ _ H2m H2) as [H3 H3m].
    split; [|done].
    replace (x * bpow (- Zpos p~1)) with (x / 2 * bpow (- Zpos p) * bpow (- Zpos p));
      [done|].
    replace (- Zpos p~1)%Z with (-1 + (- Zpos p + - Zpos p))%Z by lia.
    rewrite !bpow_add, Hhalf. lra.
  - destruct (IH _ _ Hm Hx) as [H2 H2m].
    destruct (IH _ _ H2m H2) as [H3 H3m].
    split; [|done].
    replace (x * bpow (- Zpos p~0)) with (x * bpow (- Zpos p) * bpow (- Zpos p));
      [done|].
    replace (- Zpos p~0)%Z with (- Zpos p + - Zpos p)%Z by lia.
    rewrite !bpow_add. lra.
  - destruct (shr_1_located mrs x Hm Hx) as [H1 H1m].
    split; [|done]. change (- (1))%Z with (-1)%Z. rewrite Hhalf. exact H1.
Qed.

(** [shr] by [n >= 0] places divides the located value by [2 ^ n]. *)
Lemma shr_located (mrs : shr_record) (e n : Z) (x : R) :
  (0 <= n)%Z → (0 <= shr_m mrs)%Z → located mrs x →
  located (fst (shr mrs e n)) (x * bpow (- n)) ∧
  (0 <= shr_m (fst (shr mrs e n)))%Z ∧
  snd (shr mrs e n) = (e + n)%Z.
Proof.
  intros Hn Hm Hx. destruct n as [|p|p]; try lia; cbn [shr fst snd].
  - replace (x * bpow (- 0)) with x by (unfold bpow; simpl; lra).
    repeat split; [done..|lia].
  - destruct (iter_shr_1_located p mrs x Hm Hx) as [H1 H2]. done.
Qed.

(** A located value is within 1 of its mantissa. *)
Lemma located_bounds (mrs : shr_record) (x : R) :
  located mrs x → IZR (shr_m mrs) <= x < IZR (shr_m mrs) + 1.
Proof. unfold located. destruct (shr_r mrs), (shr_s mrs); lra. Qed.

Lemma located_of_loc_bounds (m : Z) (l : location) (x : R) :
  located (shr_record_of_loc m l) x → IZR m <= x < IZR m + 1.
Proof.
  intros H%located_bounds. by destruct l as [|[]].
Qed.

Lemma shr_m_of_loc (m : Z) (l : location) : shr_m (shr_record_of_loc m l) = m.
Proof. by destruct l as [|[]]. Qed.

(** Rounding to nearest, ties to even, moves a located value by at most
    one half. *)
Lemma round_nearest_even_located (mrs : shr_record) (x : R) :
  located mrs x →
  Rabs (IZR (round_nearest_even (shr_m mrs) (loc_of_shr_record mrs)) - x) <= / 2 ∧
  (shr_m mrs <= round_nearest_even (shr_m mrs) (loc_of_shr_record mrs)
     <= shr_m mrs + 1)%Z.
Proof.
  destruct mrs as [m r s]. unfold located. cbn [shr_m shr_r shr_s].
  intros Hx. destruct r, s; cbn [loc_of_shr_record round_nearest_even];
    try destruct (Z.even m); rewrite ?plus_IZR;
    (split; [apply Rabs_le; lra|lia]).
Qed.

End Shift.

(** ** Rounding to binary64 *)

Section Round.

Local Open Scope R_scope.

Lemma two_52 : (2 ^ 52 = 4503599627370496)%Z.
Proof. reflexivity. Qed.

Lemma two_53 : (2 ^ 53 = 9007199254740992)%Z.
Proof. reflexivity. Qed.

(** Shifting the mantissa [2 ^ 53] by one place is exact. *)
Lemma shr_carry (e : Z) :
  shr (shr_record_of_loc 9007199254740992 loc_Exact) e 1 =
  (Build_shr_record 4503599627370496 false false, (e + 1)%Z).
Proof. reflexivity. Qed.

(** A real between two consecutive integers pins the lower one. *)
Lemma IZR_floor_lt (a b : Z) (x : R) :
  IZR a <= x → x < IZR b → (a < b)%Z.
Proof. intros H1 H2. apply lt_IZR. lra. Qed.

(** In the normal range and without overflow, [binary_round_aux] returns
    a finite float with a 53-bit mantissa, within one unit roundoff
    (relative) of the located value. *)
Lemma binary_round_aux_normal (sx : bool) (m e : Z) (l : location) (x : R) :
  (0 < m)%Z →
  located (shr_record_of_loc m l) x →
  (53 <= Zdigits2 m)%Z →
  (-1074 <= Zdigits2 m + e - 53)%Z →
  (Zdigits2 m + e <= 1023)%Z →
  ∃ (m' : positive) (e' : Z),
    binary_round_aux 53 1024 sx m e l = S754_finite sx m' e' ∧
    (2 ^ 52 <= Zpos m' < 2 ^ 53)%Z ∧
    (Zdigits2 m + e - 53 <= e' <= Zdigits2 m + e - 52)%Z ∧
    Rabs (F2R (Zpos m') e' - x * bpow e) <= u53 * (x * bpow e).
Proof.
  intros Hm Hx Hd Hnorm Hover.
  destruct (Zdigits2_bounds m Hm) as [[Hlo Hhi] _].
  set (dm := Zdigits2 m) in *. set (n := (dm - 53)%Z).
  pose proof (located_of_loc_bounds m l x Hx) as [Hxlo Hxhi].
  (* the first shift *)
  unfold binary_round_aux, shr_fexp, fexp, emin. fold dm.
  replace (Z.max (dm + e - 53) (3 - 1024 - 53) - e)%Z with n by (unfold n; lia).
  destruct (shr_located (shr_record_of_loc m l) e n x) as (Hloc & Hms & He1);
    [unfold n; lia|rewrite shr_m_of_loc; lia|done|].
  destruct (shr (shr_record_of_loc m l) e n) as [mrs1 e1]. simpl in Hloc, Hms, He1.
  subst e1.
  (* the shifted value lies in [2^52, 2^53) *)
  assert (Hbm : bpow (dm - 1) <= IZR m)
    by (rewrite bpow_IZR by lia; by apply IZR_le).
  assert (Hbm' : IZR m + 1 <= bpow dm).
  { rewrite bpow_IZR by lia. rewrite <- plus_IZR. apply IZR_le. lia. }
  assert (Hsplit : bpow dm = bpow 53 * bpow n)
    by (rewrite <- bpow_add; f_equal; unfold n; lia).
  assert (Hsplit' : bpow (dm - 1) = bpow 52 * bpow n)
    by (rewrite <- bpow_add; f_equal; unfold n; lia).
  assert (Hinv : bpow n * bpow (- n) = 1)
    by (rewrite <- bpow_add, Z.add_opp_diag_r; apply bpow_0).
  pose proof (bpow_pos n) as Hpn. pose proof (bpow_pos (- n)) as Hpn'.
  set (y := x * bpow (- n)) in *.
  assert (Hy : bpow 52 <= y < bpow 53).
  { unfold y. split.
    - replace (bpow 52) with (bpow 52 * bpow n * bpow (- n)) by (rewrite Rmult_assoc, Hinv; lra).
      apply Rmult_le_compat_r; lra.
    - replace (bpow 53) with (bpow 53 * bpow n * bpow (- n)) by (rewrite Rmult_assoc, Hinv; lra).
      apply Rmult_lt_compat_r; lra. }
  rewrite !bpow_IZR in Hy by lia.
  pose proof (located_bounds mrs1 y Hloc) as [Hylo Hyhi].
  destruct (round_nearest_even_located mrs1 y Hloc) as [Hrnd Hm1].
  set (m1 := round_nearest_even (shr_m mrs1) (loc_of_shr_record mrs1)) in *.
  assert (Hms53 : (shr_m mrs1 < 2 ^ 53)%Z) by (apply (IZR_floor_lt _ _ y); lra).
  assert (Hms52 : (2 ^ 52 < shr_m mrs1 + 1)%Z).
  { apply lt_IZR. rewrite plus_IZR. lra. }
  (* the error of the rounded mantissa, at the exponent e + n *)
  assert (Herr : Rabs (F2R m1 (e + n) - x * bpow e) <= u53 * (x * bpow e)).
  { unfold F2R, u53.
    assert (Hxe : x * bpow e = y * bpow (e + n)).
    { unfold y. rewrite Rmult_assoc, <- bpow_add. do 2 f_equal. lia. }
    rewrite Hxe.
    replace (IZR m1 * bpow (e + n) - y * bpow (e + n))
      with ((IZR m1 - y) * bpow (e + n)) by lra.
    pose proof (bpow_pos (e + n)) as Hpe.
    rewrite Rabs_mult, (Rabs_pos_eq (bpow (e + n))) by lra.
    assert (Hhalf : / 2 <= bpow (-53) * y).
    { apply Rle_trans with (bpow (-53) * IZR (2 ^ 52)).
      - rewrite <- bpow_IZR by lia. rewrite <- bpow_add.
        replace (-53 + 52)%Z with (-1)%Z by lia. unfold bpow. simpl. lra.
      - apply Rmult_le_compat_l; [pose proof (bpow_pos (-53)); lra|lra]. }
    rewrite <- Rmult_assoc. apply Rmult_le_compat_r; lra. }
  (* the second shift *)
  assert (Hm1pos : (0 < m1)%Z) by (pose proof two_52; lia).
  destruct (Z.eq_dec m1 (2 ^ 53)%Z) as [Hcarry|Hnocarry].
  - (* the rounding carried into a 54th bit: one more, exact, shift *)
    assert (Hd1 : Zdigits2 m1 = 54%Z) by (rewrite Hcarry; reflexivity).
    rewrite Hd1.
    replace (Z.max (54 + (e + n) - 53) (3 - 1024 - 53) - (e + n))%Z with 1%Z
      by (unfold n; lia).
    rewrite Hcarry, two_53, shr_carry. cbv beta iota delta [shr_m].
    replace (e + n + 1 <=? 1024 - 53)%Z with true
      by (symmetry; apply Z.leb_le; unfold n; lia).
    exists 4503599627370496%positive, (e + n + 1)%Z. split; [reflexivity|].
    split; [rewrite ?two_52, ?two_53; lia|].
    split; [unfold n; lia|].
    replace (F2R 4503599627370496 (e + n + 1)) with (F2R m1 (e + n)); [done|].
    rewrite Hcarry. unfold F2R. rewrite bpow_succ, two_53.
    replace 9007199254740992 with (2 * 4503599627370496) by lra. lra.
  - (* no carry: the mantissa has 53 bits *)
    assert (Hd1 : Zdigits2 m1 = 53%Z).
    { apply Zdigits2_unique; [|done]. replace (53 - 1)%Z with 52%Z by lia. lia. }
    rewrite Hd1.
    replace (Z.max (53 + (e + n) - 53) (3 - 1024 - 53) - (e + n))%Z with 0%Z
      by (unfold n; lia).
    cbn [shr shr_record_of_loc shr_m].
    destruct m1 as [|m'|m'] eqn:Em1; try lia.
    replace (e + n <=? 1024 - 53)%Z with true
      by (symmetry; apply Z.leb_le; unfold n; lia).
    exists m', (e + n)%Z. split; [reflexivity|].
    split; [lia|]. split; [unfold n; lia|]. done.
Qed.

(** A 53-bit mantissa is returned as it is. *)
Lemma binary_round_aux_exact (sx : bool) (m : positive) (e : Z) :
  Zdigits2 (Zpos m) = 53%Z → (-1074 <= e <= 971)%Z →
  binary_round_aux 53 1024 sx (Zpos m) e loc_Exact = S754_finite sx m e.
Proof.
  intros Hd He. unfold binary_round_aux, shr_fexp, fexp, emin.
  cbn [shr_record_of_loc]. rewrite Hd.
  replace (Z.max (53 + e - 53) (3 - 1024 - 53) - e)%Z with 0%Z by lia.
  cbn [shr shr_m shr_r shr_s loc_of_shr_record round_nearest_even]. rewrite Hd.
  replace (Z.max (53 + e - 53) (3 - 1024 - 53) - e)%Z with 0%Z by lia.
  cbn [shr shr_m shr_record_of_loc].
  replace (e <=? 1024 - 53)%Z with true by (symmetry; apply Z.leb_le; lia).
  reflexivity.
Qed.

(** *** Conversion of an integer *)

Lemma iter_xO_value (k p : positive) :
  Zpos (Pos.iter xO p k) = (Zpos p * 2 ^ Zpos k)%Z.
Proof.
  induction k as [|k IH] using Pos.peano_ind.
  - simpl. lia.
  - rewrite Pos.iter_succ, Pos2Z.inj_succ, Z.pow_succ_r by lia.
    replace (Zpos (Pos.iter xO p k)~0) with (2 * Zpos (Pos.iter xO p k))%Z by lia.
    rewrite IH. lia.
Qed.

(** Below [2 ^ 53] the conversion is exact, and the float it returns is
    normalised. *)
Lemma of_int_exact (d : Z) :
  (0 < d < 2 ^ 53)%Z →
  ∃ (md : positive) (ed : Z),
    Float.of_int d = Ok (S754_finite false md ed) ∧
    (2 ^ 52 <= Zpos md < 2 ^ 53)%Z ∧ (-52 <= ed <= 0)%Z ∧
    F2R (Zpos md) ed = IZR d.
Proof.
  intros [Hd0 Hd53]. destruct d as [|p|p]; try lia.
  destruct (Zdigits2_bounds (Zpos p) Hd0) as [[Hlo Hhi] Hdd].
  pose proof (Zdigits2_le (Zpos p) 53 Hd0 Hd53) as Hdle.
  cbn [Zdigits2] in *. set (dd := Zpos (digits2_pos p)) in *.
  unfold Float.of_int, binary_normalize, binary_round, Float.prec, Float.emax,
    fexp, emin. fold dd.
  replace (Z.max (dd + 0 - 53) (3 - 1024 - 53))%Z with (dd - 53)%Z by lia.
  assert (Hpow : ∀ k, (0 <= k)%Z → (2 ^ (dd - 1) * 2 ^ k = 2 ^ (dd - 1 + k))%Z ∧
                                   (2 ^ dd * 2 ^ k = 2 ^ (dd + k))%Z).
  { intros k Hk. rewrite !Z.pow_add_r by lia. done. }
  unfold shl_align. destruct (dd - 53 - 0)%Z as [|k|k] eqn:Hk; try lia.
  - (* 53 digits already *)
    rewrite binary_round_aux_exact; [|cbn [Zdigits2]; fold dd; lia|lia].
    exists p, 0%Z. split; [done|]. replace dd with 53%Z in * by lia.
    split; [simpl Z.sub in Hlo; lia|]. split; [lia|].
    unfold F2R. rewrite bpow_0. lra.
  - (* fewer digits: the mantissa is shifted left *)
    assert (Hkv : Zpos k = (53 - dd)%Z) by lia.
    pose proof (iter_xO_value k p) as Hv. rewrite Hkv in Hv.
    destruct (Hpow (53 - dd)%Z) as [Hp1 Hp2]; [lia|].
    replace (dd - 1 + (53 - dd))%Z with 52%Z in Hp1 by lia.
    replace (dd + (53 - dd))%Z with 53%Z in Hp2 by lia.
    assert (Hpk : (0 < 2 ^ (53 - dd))%Z) by (apply Z.pow_pos_nonneg; lia).
    assert (Hrange : (2 ^ 52 <= Zpos (Pos.iter xO p k) < 2 ^ 53)%Z).
    { rewrite Hv, <- Hp1, <- Hp2. split.
      - apply Z.mul_le_mono_nonneg_r; lia.
      - apply Z.mul_lt_mono_pos_r; lia. }
    rewrite binary_round_aux_exact; [| |lia].
    + eexists _, _. split; [reflexivity|]. split; [done|]. split; [lia|].
      rewrite Hv, F2R_shift by lia.
      replace (dd - 53 + (53 - dd))%Z with 0%Z by lia.
      unfold F2R. rewrite bpow_0. lra.
    + apply Zdigits2_unique; [|lia]. replace (53 - 1)%Z with 52%Z by lia. done.
Qed.

(** *** Division of two integers *)

(** The location computed from a remainder tells where the exact
    quotient lies. *)
Lemma new_location_located (q c r : Z) (x : R) :
  (0 < c)%Z → (0 <= r < c)%Z → x * IZR c = IZR q * IZR c + IZR r →
  located (shr_record_of_loc q (new_location c r)) x.
Proof.
  intros Hc [Hr0 Hrc] Hx.
  assert (HRc : 0 < IZR c) by (apply IZR_lt; lia).
  assert (HRr : 0 <= IZR r) by (apply IZR_le; lia).
  unfold new_location, new_location_even, new_location_odd.
  destruct (Z.even c) eqn:Heven; cbv beta;
    (destruct (Z.eqb_spec r 0) as [->|Hr];
     [assert (x = IZR q) by nra; unfold located; cbn; done|]).
  - assert (HRr' : 1 <= IZR r) by (apply IZR_le; lia).
    destruct (Z.compare_spec (2 * r) c) as [Heq|Hlt|Hgt]; unfold located; cbn.
    + apply (f_equal IZR) in Heq. rewrite mult_IZR in Heq. nra.
    + apply IZR_lt in Hlt. rewrite mult_IZR in Hlt. split; nra.
    + apply IZR_lt in Hgt. apply IZR_lt in Hrc. rewrite mult_IZR in Hgt.
      split; nra.
  - assert (HRr' : 1 <= IZR r) by (apply IZR_le; lia).
    assert (Hodd : (2 * r ≠ c)%Z).
    { intros <-. rewrite Z.even_mul in Heven. done. }
    destruct (Z.compare_spec (2 * r + 1) c) as [Heq|Hlt|Hgt]; unfold located; cbn.
    + assert (Hlt : (2 * r < c)%Z) by lia.
      apply IZR_lt in Hlt. rewrite mult_IZR in Hlt. split; nra.
    + assert (Hlt' : (2 * r < c)%Z) by lia.
      apply IZR_lt in Hlt'. rewrite mult_IZR in Hlt'. split; nra.
    + assert (Hgt' : (c < 2 * r)%Z) by lia.
      apply IZR_lt in Hgt'. apply IZR_lt in Hrc. rewrite mult_IZR in Hgt'.
      split; nra.
Qed.

(** The quotient of two positive integers below [2 ^ 53] is a normal
    float within one unit roundoff of the exact quotient. *)
Lemma truediv_accurate (t c : Z) :
  (0 < t < 2 ^ 53)%Z → (0 < c < 2 ^ 53)%Z →
  ∃ (ms : positive) (es : Z),
    Float.truediv t c = Ok (S754_finite false ms es) ∧
    (2 ^ 52 <= Zpos ms < 2 ^ 53)%Z ∧ (-105 <= es <= 1)%Z ∧
    Rabs (F2R (Zpos ms) es - IZR t / IZR c) <= u53 * (IZR t / IZR c).
Proof.
  intros [Ht0 Ht53] [Hc0 Hc53].
  destruct (Zdigits2_bounds t Ht0) as [[Htlo Hthi] Hd1].
  destruct (Zdigits2_bounds c Hc0) as [[Hclo Hchi] Hd2].
  pose proof (Zdigits2_le t 53 Ht0 Ht53) as Hd1le.
  pose proof (Zdigits2_le c 53 Hc0 Hc53) as Hd2le.
  unfold Float.truediv. destruct (Z.eqb_spec c 0) as [?|_]; [lia|].
  destruct t as [|pt|pt]; try lia. destruct c as [|pc|pc]; try lia.
  cbn [Float.exact_of_int SFdiv xorb]. unfold Float.prec, Float.emax.
  unfold SFdiv_core_binary, fexp, emin.
  set (d1 := Zdigits2 (Zpos pt)) in *. set (d2 := Zdigits2 (Zpos pc)) in *.
  replace (Z.min (Z.max (d1 + 0 - (d2 + 0) - 53) (3 - 1024 - 53)) (0 - 0))%Z
    with (d1 - d2 - 53)%Z by lia.
  set (s := (53 + d2 - d1)%Z).
  replace (0 - 0 - (d1 - d2 - 53))%Z with s by (unfold s; lia).
  assert (Hs : (0 < s)%Z) by (unfold s; lia).
  destruct s as [|ps|ps] eqn:Es; try lia. rewrite <- Es in *.
  rewrite Z.shiftl_mul_pow2 by lia.
  set (m' := (Zpos pt * 2 ^ s)%Z).
  pose proof (Z_div_mod m' (Zpos pc) ltac:(lia)) as Hdm.
  destruct (Z.div_eucl m' (Zpos pc)) as [q r]. destruct Hdm as [Hm' Hr].
  (* the size of the quotient *)
  assert (Hps : (0 < 2 ^ s)%Z) by (apply Z.pow_pos_nonneg; lia).
  assert (Hlow : (2 ^ 52 * 2 ^ d2 <= m')%Z).
  { unfold m'. rewrite <- Z.pow_add_r by lia.
    replace (52 + d2)%Z with (d1 - 1 + s)%Z by (unfold s; lia).
    rewrite Z.pow_add_r by lia. apply Z.mul_le_mono_nonneg_r; lia. }
  assert (Hhigh : (m' < 2 ^ 54 * 2 ^ (d2 - 1))%Z).
  { unfold m'. rewrite <- Z.pow_add_r by lia.
    replace (54 + (d2 - 1))%Z with (d1 + s)%Z by (unfold s; lia).
    rewrite Z.pow_add_r by lia. apply Z.mul_lt_mono_pos_r; lia. }
  assert (Hq52 : (2 ^ 52 <= q)%Z) by nia.
  assert (Hq54 : (q < 2 ^ 54)%Z) by nia.
  assert (Hq0 : (0 < q)%Z) by (pose proof two_52; lia).
  pose proof (Zdigits2_ge q 53 Hq0 ltac:(replace (53 - 1)%Z with 52%Z by lia; lia))
    as Hdq53.
  pose proof (Zdigits2_le q 54 Hq0 Hq54) as Hdq54.
  (* the exact quotient, at the exponent of the core division *)
  set (x := IZR m' / IZR (Zpos pc)).
  assert (HRc : 0 < IZR (Zpos pc)) by (apply IZR_lt; lia).
  assert (Hx : x * IZR (Zpos pc) = IZR q * IZR (Zpos pc) + IZR r).
  { unfold x. rewrite Hm', plus_IZR, mult_IZR. field. lra. }
  destruct (binary_round_aux_normal false q (d1 - d2 - 53) (new_location (Zpos pc) r) x)
    as (ms & es & Hrun & Hms & Hes & Herr); [done| |done|lia|lia|].
  { apply new_location_located; [lia|lia|done]. }
  rewrite Hrun. exists ms, es. split; [done|]. split; [done|]. split; [lia|].
  replace (IZR (Zpos pt) / IZR (Zpos pc)) with (x * bpow (d1 - d2 - 53)); [done|].
  unfold x, m'. rewrite mult_IZR, <- bpow_IZR by lia.
  unfold Rdiv. rewrite (Rmult_comm (IZR (Zpos pt) * bpow s)), <- !Rmult_assoc.
  rewrite (Rmult_assoc _ (bpow s)), <- bpow_add.
  replace (s + (d1 - d2 - 53))%Z with 0%Z by (unfold s; lia).
  rewrite bpow_0. lra.
Qed.

(** *** Multiplication and truncation *)

Lemma Rabs_bounds (a b : R) : Rabs a <= b → - b <= a <= b.
Proof. unfold Rabs. destruct (Rcase_abs a); lra. Qed.

(** The product of two normalised positive floats of moderate size is
    within one unit roundoff of the exact product. *)
Lemma mul_accurate (md ms : positive) (ed es : Z) :
  (2 ^ 52 <= Zpos md < 2 ^ 53)%Z → (2 ^ 52 <= Zpos ms < 2 ^ 53)%Z →
  (-52 <= ed <= 0)%Z → (-105 <= es <= 1)%Z →
  ∃ (my : positive) (ey : Z),
    SFmul 53 1024 (S754_finite false md ed) (S754_finite false ms es) =
      S754_finite false my ey ∧
    Rabs (F2R (Zpos my) ey - F2R (Zpos md) ed * F2R (Zpos ms) es)
      <= u53 * (F2R (Zpos md) ed * F2R (Zpos ms) es).
Proof.
  intros [Hd52 Hd53] [Hs52 Hs53] Hed Hes. cbn [SFmul xorb].
  assert (Hp104 : (2 ^ 104 <= Zpos (md * ms))%Z).
  { rewrite Pos2Z.inj_mul. change (2 ^ 104)%Z with (2 ^ 52 * 2 ^ 52)%Z.
    apply Z.mul_le_mono_nonneg; lia. }
  assert (Hp106 : (Zpos (md * ms) < 2 ^ 106)%Z).
  { rewrite Pos2Z.inj_mul. change (2 ^ 106)%Z with (2 ^ 53 * 2 ^ 53)%Z.
    apply Z.mul_lt_mono_nonneg; lia. }
  pose proof (Zdigits2_ge (Zpos (md * ms)) 105 ltac:(lia)
                ltac:(replace (105 - 1)%Z with 104%Z by lia; done)) as Hdg105.
  pose proof (Zdigits2_le (Zpos (md * ms)) 106 ltac:(lia) Hp106) as Hdg106.
  destruct (binary_round_aux_normal false (Zpos (md * ms)) (ed + es) loc_Exact
              (IZR (Zpos (md * ms))))
    as (my & ey & Hrun & _ & _ & Herr); [lia|done|lia|lia|lia|].
  exists my, ey. split; [done|].
  replace (F2R (Zpos md) ed * F2R (Zpos ms) es)
    with (IZR (Zpos (md * ms)) * bpow (ed + es)); [done|].
  unfold F2R. rewrite Pos2Z.inj_mul, mult_IZR, bpow_add. lra.
Qed.

(** [int] of a positive float is the floor of its value. *)
Lemma to_int_floor (m : positive) (e : Z) :
  ∃ r : Z, Float.to_int (S754_finite false m e) = Ok r ∧
           IZR r <= F2R (Zpos m) e < IZR r + 1.
Proof.
  unfold Float.to_int, F2R. destruct e as [|k|k].
  - exists (Zpos m). split; [done|]. rewrite bpow_0. lra.
  - exists (Zpos m * 2 ^ Zpos k)%Z. split; [done|].
    rewrite mult_IZR, <- bpow_IZR by lia. lra.
  - exists (Zpos m `div` 2 ^ (- Zneg k))%Z. split; [done|].
    change (- Zneg k)%Z with (Zpos k).
    assert (Hpk : (0 < 2 ^ Zpos k)%Z) by (apply Z.pow_pos_nonneg; lia).
    pose proof (Z_div_mod_eq_full (Zpos m) (2 ^ Zpos k)) as Hdiv.
    pose proof (Z.mod_pos_bound (Zpos m) (2 ^ Zpos k) Hpk) as [Hr0 Hr1].
    set (q := (Zpos m `div` 2 ^ Zpos k)%Z) in *.
    set (r := (Zpos m `mod` 2 ^ Zpos k)%Z) in *.
    change (Zneg k) with (- Zpos k)%Z. rewrite bpow_opp.
    pose proof (bpow_pos (Zpos k)) as Hb.
    assert (Hm : IZR (Zpos m) = bpow (Zpos k) * IZR q + IZR r).
    { rewrite Hdiv, plus_IZR, mult_IZR, bpow_IZR by lia. done. }
    assert (HRr0 : 0 <= IZR r) by (apply IZR_le; lia).
    assert (HRr1 : IZR r < bpow (Zpos k)) by (rewrite bpow_IZR by lia; apply IZR_lt; lia).
    rewrite Hm. split.
    + apply Rmult_le_reg_r with (bpow (Zpos k)); [done|]. field_simplify; nra.
    + apply Rmult_lt_reg_r with (bpow (Zpos k)); [done|]. field_simplify; nra.
Qed.

(** *** The rescaled duration *)

Lemma u53_bounds : 0 < u53 < 1 ∧ u53 * IZR (2 ^ 51) = / 4.
Proof.
  unfold u53. split.
  - split; [apply bpow_pos|]. rewrite <- bpow_0. apply bpow_lt. lia.
  - rewrite <- bpow_IZR, <- bpow_add by lia.
    replace (-53 + 51)%Z with (-2)%Z by lia. unfold bpow. simpl. lra.
Qed.

(** Two roundings of relative error [u] each, on a product of at most
    [2 ^ 51], stay within 3/4 of the exact value once scaled by [C]. *)
Lemma two_roundings (u D T C S Y : R) :
  0 < u < 1 → 0 <= D → 0 < T → 0 < C →
  u * (D * T) <= / 4 →
  - (u * (T / C)) <= S - T / C <= u * (T / C) →
  - (u * (D * S)) <= Y - D * S <= u * (D * S) →
  - (3 / 4) < C * Y - D * T < 3 / 4.
Proof.
  intros Hu HD HT HC HP HS HY.
  set (Q := T / C) in *.
  assert (HQ : Q * C = T) by (unfold Q; field; lra).
  assert (HQ0 : 0 < Q) by (unfold Q; apply Rdiv_lt_0_compat; lra).
  set (A := D * Q).
  assert (HA0 : 0 <= A) by (unfold A; nra).
  assert (HAC : A * C = D * T) by (unfold A; rewrite <- HQ; ring).
  assert (HDS : A * (1 - u) <= D * S <= A * (1 + u)) by (unfold A; nra).
  assert (HYA : - (u * A * (2 + u)) <= Y - A <= u * A * (2 + u)) by nra.
  assert (HuA : 0 <= u * A) by nra.
  assert (HCY : - (u * (D * T) * (2 + u)) <= C * Y - D * T <= u * (D * T) * (2 + u)).
  { rewrite <- HAC.
    replace (C * Y - A * C) with (C * (Y - A)) by ring.
    replace (u * (A * C) * (2 + u)) with (C * (u * A * (2 + u))) by ring.
    split.
    - replace (- (C * (u * A * (2 + u)))) with (C * - (u * A * (2 + u))) by ring.
      apply Rmult_le_compat_l; lra.
    - apply Rmult_le_compat_l; lra. }
  assert (HuP : 0 <= u * (D * T)) by nra.
  nra.
Qed.

(** The scale [target / current] is computed once; every duration [d]
    rescaled with it is the exact quotient [d * t / c] rounded down, or
    one less when that quotient is an integer. *)
Lemma scaled_bounds (t c : Z) :
  (0 < t < 2 ^ 53)%Z → (0 < c < 2 ^ 53)%Z →
  ∃ scale : Float.float,
    Float.truediv t c = Ok scale ∧
    ∀ d : Z, (0 <= d)%Z → (d * t <= 2 ^ 51)%Z →
      ∃ r : Z, scaled scale d = Ok r ∧ (c * r <= d * t <= c * r + c)%Z.
Proof.
  intros Ht Hc.
  destruct (truediv_accurate t c Ht Hc) as (ms & es & Hdiv & Hms & Hes & HS).
  exists (S754_finite false ms es). split; [done|].
  intros d Hd Hdt. destruct (Z.eq_dec d 0%Z) as [->|Hd0].
  - exists 0%Z. split; [reflexivity|lia].
  - assert (Hd53 : (0 < d < 2 ^ 53)%Z).
    { split; [lia|]. assert (d <= d * t)%Z by nia.
      assert (2 ^ 51 < 2 ^ 53)%Z by done. lia. }
    destruct (of_int_exact d Hd53) as (md & ed & Hof & Hmd & Hed & HD).
    destruct (mul_accurate md ms ed es Hmd Hms Hed Hes) as (my & ey & Hmul & HY).
    destruct (to_int_floor my ey) as (r & Hint & Hr).
    exists r. split.
    { unfold scaled, Float.mul_int. rewrite Hof. unfold Float.prec, Float.emax.
      rewrite Hmul. done. }
    rewrite HD in HY. apply Rabs_bounds in HS, HY.
    destruct u53_bounds as [Hu Hu51].
    assert (HRd : 0 <= IZR d) by (apply IZR_le; lia).
    assert (HRt : 0 < IZR t) by (apply IZR_lt; lia).
    assert (HRc : 0 < IZR c) by (apply IZR_lt; lia).
    assert (HP : u53 * (IZR d * IZR t) <= / 4).
    { rewrite <- Hu51, <- mult_IZR. apply Rmult_le_compat_l; [lra|].
      by apply IZR_le. }
    pose proof (two_roundings u53 (IZR d) (IZR t) (IZR c) _ _
                  Hu HRd HRt HRc HP HS HY) as Hclose.
    split.
    + apply Z.lt_succ_r. apply lt_IZR.
      rewrite <- Z.add_1_r, plus_IZR, !mult_IZR. nra.
    + apply Z.lt_succ_r. apply lt_IZR.
      rewrite <- Z.add_1_r, !plus_IZR, !mult_IZR. nra.
Qed.

(** *** Rounding on the grid *)




(** *** The rescaled duration, for all operands below [2 ^ 53] *)



End Round.

(** ** The proportional rescale *)

Lemma included_b_true (image_files : list string) (st : session_state) (i : nat) :
  included image_files st i ↔
  (i < length image_files)%nat ∧ included_b st i = true.
Proof. unfold included, included_b. by rewrite bool_decide_eq_true. Qed.

Lemma sum_upto_bounds (st : session_state) (n : nat) :
  (∀ i, (i < n)%nat → included_b st i = true → (0 ≤ dur_of st i)%Z) →
  (0 ≤ sum_upto st n)%Z ∧
  ∀ i, (i < n)%nat → included_b st i = true → (dur_of st i ≤ sum_upto st n)%Z.
Proof.
  induction n as [|n IH]; intros Hnn; simpl.
  - split; [lia|]. intros i Hi. lia.
  - destruct IH as [IH0 IHi]; [intros i Hi; apply Hnn; lia|].
    pose proof (Hnn n ltac:(lia)) as Hn.
    destruct (included_b st n) eqn:Hb.
    + specialize (Hn eq_refl). split; [lia|].
      intros i Hi Hbi. destruct (decide (i = n)) as [->|Hne]; [lia|].
      specialize (IHi i ltac:(lia) Hbi). lia.
    + split; [lia|]. intros i Hi Hbi.
      destruct (decide (i = n)) as [->|Hne]; [congruence|].
      specialize (IHi i ltac:(lia) Hbi). lia.
Qed.

(** When the proportional loop returns, every iteration has computed
    its scaled value. *)
Lemma for_rescale_body_inv (scale : Float.float) (idx : list nat)
    (st st' : session_state) :
  NoDup idx →
  for_ idx (rescale_body scale) st = (st', Ok tt) →
  ∀ i, i ∈ idx → ∃ d v, dur st !! i = Some d ∧ scaled scale d = Ok v.
Proof.
  revert st. induction idx as [|j idx IH]; intros st Hnd Hrun i Hi.
  - by apply elem_of_nil in Hi.
  - apply NoDup_cons in Hnd as [Hj Hnd].
    rewrite for_cons, rescale_body_run in Hrun.
    destruct (dur st !! j) as [d|] eqn:Hd; [|discriminate Hrun].
    destruct (scaled scale d) as [e|v] eqn:Hv; [discriminate Hrun|].
    simpl in Hrun. apply elem_of_cons in Hi as [->|Hi]; [by exists d, v|].
    destruct (IH _ Hnd Hrun i Hi) as (di & vi & Hdi & Hvi).
    exists di, vi. split; [|done]. simpl in Hdi.
    rewrite lookup_insert_ne in Hdi; [done|]. by intros ->.
Qed.

(** The proportional branch, run.  Once the scale and the scaled value
    of every included duration are computed, the callback returns, and
    every included duration has become its scaled value. *)
Lemma rescale_proportional_returns (image_files : list string) (st : session_state)
    (scale : Float.float) :
  initialised image_files st →
  (∃ i, included image_files st i) →
  sum_included image_files st ≠ 0%Z →
  Float.truediv (total_duration st) (sum_included image_files st) = Ok scale →
  (∀ i, included image_files st i → ∃ r, scaled scale (dur_of st i) = Ok r) →
  ∃ st' : session_state,
    rescale_individual_durations image_files st = (st', Ok tt) ∧
    use st' = use st ∧
    ∀ i, included image_files st i →
      ∃ r : Z, dur st' !! i = Some r ∧ scaled scale (dur_of st i) = Ok r.
Proof.
  intros Hinit Hex Hnz Hdiv Hitem.
  destruct (for_rescale_body scale (selection image_files st) st) as (st' & Hrun & Hfr & Hres).
  { apply NoDup_selection. }
  { intros i Hi%elem_of_selection. destruct (Hitem i Hi) as (r & Hr).
    destruct (Hinit i) as [_ [d Hd]]; [apply Hi|].
    exists d, r. split; [done|]. unfold dur_of in Hr. by rewrite Hd in Hr. }
  exists st'. split.
  { rewrite rescale_unfold, get_selected_total by done.
    rewrite truthy_selection by done. simpl negb. cbv iota.
    rewrite sum_selection.
    destruct (Z.eqb_spec (sum_included image_files st) 0) as [?|_]; [done|].
    rewrite Hdiv. done. }
  split; [apply Hfr|].
  intros i Hi. destruct (Hitem i Hi) as (r & Hr).
  exists r. split; [|done].
  destruct (Hres i) as (d & Hd & Hd'); [by apply elem_of_selection|].
  unfold dur_of in Hr. rewrite Hd in Hr. simpl in Hr. rewrite Hr in Hd'.
  destruct (dur st' !! i) as [r'|]; simpl in Hd'; congruence.
Qed.

(** Conversely, the proportional branch returns only if the scale and
    every scaled value could be computed. *)
Lemma rescale_proportional_inv (image_files : list string) (st st' : session_state) :
  initialised image_files st →
  (∃ i, included image_files st i) →
  sum_included image_files st ≠ 0%Z →
  rescale_individual_durations image_files st = (st', Ok tt) →
  ∃ scale : Float.float,
    Float.truediv (total_duration st) (sum_included image_files st) = Ok scale ∧
    ∀ i, included image_files st i → ∃ r, scaled scale (dur_of st i) = Ok r.
Proof.
  intros Hinit Hex Hnz Hrun.
  rewrite rescale_unfold, get_selected_total in Hrun by done.
  rewrite truthy_selection in Hrun by done. simpl negb in Hrun. cbv iota in Hrun.
  rewrite sum_selection in Hrun.
  destruct (Z.eqb_spec (sum_included image_files st) 0) as [?|_]; [done|].
  destruct (Float.truediv _ _) as [e|scale]; [discriminate Hrun|].
  exists scale. split; [done|]. intros i Hi%elem_of_selection.
  destruct (for_rescale_body_inv scale _ st st' (NoDup_selection image_files st) Hrun i Hi)
    as (d & v & Hd & Hv).
  exists v. unfold dur_of. by rewrite Hd.
Qed.

(** C1 (amended). In the proportional branch the callback returns
    exactly when the scale [target_total / current_total] and every
    [int(d * scale)] can be computed, both operations in binary64
    arithmetic; and whenever it returns, every included duration [d] has
    become [int(d * scale)].  For non-negative durations whose total is
    below [2 ^ 53] and a positive target with [d * target <= 2 ^ 51] for
    every included [d], it does return, and the new duration is
    [floor(d * target / current)], or one less than it when [current]
    divides [d * target]. *)
Theorem rescale_proportional_item (image_files : list string) (st : session_state) :
  initialised image_files st →
  (∃ i, included image_files st i) →
  sum_included image_files st ≠ 0%Z →
  ((∃ st', rescale_individual_durations image_files st = (st', Ok tt)) ↔
   (∃ scale,
      Float.truediv (total_duration st) (sum_included image_files st) = Ok scale ∧
      ∀ i, included image_files st i → ∃ r, scaled scale (dur_of st i) = Ok r)) ∧
  (∀ st', rescale_individual_durations image_files st = (st', Ok tt) →
     ∃ scale,
       Float.truediv (total_duration st) (sum_included image_files st) = Ok scale ∧
       ∀ i, included image_files st i →
         ∃ r : Z, dur st' !! i = Some r ∧ scaled scale (dur_of st i) = Ok r) ∧
  ((∀ i, included image_files st i → (0 ≤ dur_of st i)%Z) →
   (sum_included image_files st < 2 ^ 53)%Z →
   (0 < total_duration st)%Z →
   (∀ i, included image_files st i → (dur_of st i * total_duration st ≤ 2 ^ 51)%Z) →
   ∃ st' : session_state,
     rescale_individual_durations image_files st = (st', Ok tt) ∧
     ∀ i, included image_files st i →
       ∃ r : Z,
         dur st' !! i = Some r ∧
         (r = (dur_of st i * total_duration st) `div` sum_included image_files st ∨
          (r = (dur_of st i * total_duration st) `div` sum_included image_files st - 1 ∧
           (dur_of st i * total_duration st) `mod` sum_included image_files st = 0))%Z).
Proof.
  intros Hinit Hex Hnz.
  set (c := sum_included image_files st) in *. set (t := total_duration st) in *.
  assert (Hval : ∀ st', rescale_individual_durations image_files st = (st', Ok tt) →
     ∃ scale, Float.truediv t c = Ok scale ∧
       ∀ i, included image_files st i →
         ∃ r : Z, dur st' !! i = Some r ∧ scaled scale (dur_of st i) = Ok r).
  { intros st' Hrun.
    destruct (rescale_proportional_inv image_files st st' Hinit Hex Hnz Hrun)
      as (scale & Hdiv & Hitem).
    destruct (rescale_proportional_returns image_files st scale Hinit Hex Hnz Hdiv Hitem)
      as (st'' & Hrun' & _ & Hres).
    exists scale. split; [done|]. rewrite Hrun in Hrun'. by injection Hrun' as <-. }
  split; [|split; [exact Hval|]].
  - split.
    + intros (st' & Hrun). by apply (rescale_proportional_inv image_files st st').
    + intros (scale & Hdiv & Hitem).
      destruct (rescale_proportional_returns image_files st scale Hinit Hex Hnz Hdiv Hitem)
        as (st' & Hrun & _). by exists st'.
  - intros Hnn Hc53 Ht Hprod.
    destruct (sum_upto_bounds st (length image_files)) as [Hc0 Hdle].
    { intros i Hi Hb. apply Hnn, included_b_true. done. }
    fold (sum_included image_files st) in Hc0, Hdle. fold c in Hc0, Hdle.
    assert (Hc : (0 < c)%Z) by lia.
    (* some included duration is positive, so the target is small too *)
    assert (Ht53 : (t < 2 ^ 53)%Z).
    { destruct (Z_lt_le_dec t (2 ^ 53)) as [?|Hbig]; [done|]. exfalso. apply Hnz.
      assert (Hall : ∀ i, (i < length image_files)%nat → included_b st i = true →
                          dur_of st i = 0%Z).
      { intros i Hi Hb. assert (Hin : included image_files st i) by by apply included_b_true.
        specialize (Hnn i Hin). specialize (Hprod i Hin). fold t in Hprod.
        assert (2 ^ 51 < 2 ^ 53)%Z by done. nia. }
      unfold c, sum_included. clear -Hall.
      induction (length image_files) as [|n IH]; [done|]. simpl.
      rewrite IH by (intros i Hi; apply Hall; lia).
      destruct (included_b st n) eqn:Hb; [|done]. rewrite Hall by (done || lia). done. }
    destruct (scaled_bounds t c) as (scale & Hdiv & Hscaled); [lia|lia|].
    assert (Hitem : ∀ i, included image_files st i →
              ∃ r, scaled scale (dur_of st i) = Ok r ∧
                   (c * r ≤ dur_of st i * t ≤ c * r + c)%Z).
    { intros i Hi. apply Hscaled; [by apply Hnn|by apply Hprod]. }
    destruct (rescale_proportional_returns image_files st scale Hinit Hex Hnz Hdiv)
      as (st' & Hrun & _ & Hres).
    { intros i Hi. destruct (Hitem i Hi) as (r & Hr & _). by exists r. }
    exists st'. split; [done|]. intros i Hi.
    destruct (Hres i Hi) as (r & Hr & Hs). destruct (Hitem i Hi) as (r' & Hs' & Hlo & Hhi).
    assert (r' = r) as -> by congruence.
    exists r. split; [done|].
    set (p := (dur_of st i * t)%Z) in *.
    destruct (Z.eq_dec p (c * r + c)%Z) as [Heq|Hne].
    + right. replace p with ((r + 1) * c)%Z by lia.
      rewrite Z.div_mul, Z.mod_mul by lia. lia.
    + left. apply (Z.div_unique_pos p c r (p - c * r)); lia.
Qed.

Lemma rescale_proportional_item_witness :
  ∃ st' : session_state,
    rescale_individual_durations one_file seven_session = (st', Ok tt) ∧
    ∀ i, included one_file seven_session i →
      ∃ r : Z,
        dur st' !! i = Some r ∧
        (r = (dur_of seven_session i * total_duration seven_session)
               `div` sum_included one_file seven_session ∨
         (r = (dur_of seven_session i * total_duration seven_session)
                `div` sum_included one_file seven_session - 1 ∧
          (dur_of seven_session i * total_duration seven_session)
            `mod` sum_included one_file seven_session = 0))%Z.
Proof.
  apply (rescale_proportional_item one_file seven_session).
  - intros i Hi. destruct i as [|i]; simpl in Hi; [|lia]. split; eexists; reflexivity.
  - exists 0%nat. split; [simpl; lia|reflexivity].
  - discriminate.
  - intros i [Hi _]. destruct i as [|i]; simpl in Hi; [|lia]. discriminate.
  - reflexivity.
  - reflexivity.
  - intros i [Hi _]. destruct i as [|i]; simpl in Hi; [|lia]. discriminate.
Defined.

(** C1, as stated, fails: one included image of 7 ms and a target of
    115 ms give [int(7 * (115 / 7)) = 114], while
    [floor(7 * 115 / 7) = 115]. *)
Lemma rescale_not_exact_floor :
  initialised one_file seven_session ∧
  included one_file seven_session 0 ∧
  sum_included one_file seven_session = 7%Z ∧
  rescale_individual_durations one_file seven_session =
    (SessionState (use seven_session) {[0%nat := 114%Z]} 115, Ok tt) ∧
  ((dur_of seven_session 0 * total_duration seven_session)
     `div` sum_included one_file seven_session = 115)%Z.
Proof.
  split.
  { intros i Hi. destruct i as [|i]; simpl in Hi; [|lia]. split; eexists; reflexivity. }
  split; [split; [simpl; lia|reflexivity]|].
  split; [reflexivity|]. split; [|reflexivity].
  vm_compute. reflexivity.
Qed.





(** * Further properties of the modelled code *)

(** ** The initial session, key by key *)

Lemma init_item_lookup (i : nat) (st : session_state) :
  ∃ st', (_ ← init_use i; init_dur i) st = (st', Ok tt) ∧
         total_duration st' = total_duration st ∧
         ∀ j, use st' !! j = match use st !! j with
                             | Some b => Some b
                             | None => if decide (j = i) then Some true else None
                             end ∧
              dur st' !! j = match dur st !! j with
                             | Some d => Some d
                             | None => if decide (j = i) then Some 200%Z else None
                             end.
Proof.
  rewrite bind_run. unfold init_use, init_dur, modify.
  destruct (use st !! i) as [b|] eqn:Hu; destruct (dur st !! i) as [d|] eqn:Hd;
    simpl; rewrite ?Hd; eexists; (split; [reflexivity|]); (split; [reflexivity|]);
    intros j; simpl; destruct (decide (j = i)) as [->|Hne];
    rewrite ?lookup_insert_eq, ?Hu, ?Hd; try done;
    rewrite ?lookup_insert_ne by done;
    split; by repeat case_match.
Qed.

Lemma for_init_lookup (l : list (nat * string)) (st : session_state) :
  ∃ st', for_ l (λ '(i, path), _ ← init_use i; init_dur i) st = (st', Ok tt) ∧
         total_duration st' = total_duration st ∧
         ∀ j, use st' !! j = match use st !! j with
                             | Some b => Some b
                             | None => if decide (j ∈ l.*1) then Some true else None
                             end ∧
              dur st' !! j = match dur st !! j with
                             | Some d => Some d
                             | None => if decide (j ∈ l.*1) then Some 200%Z else None
                             end.
Proof.
  revert st. induction l as [|[i path] l IH]; intros st.
  - exists st. split; [done|]. split; [done|]. intros j. simpl.
    split; by repeat case_match.
  - destruct (init_item_lookup i st) as (st1 & Hrun1 & Ht1 & Hl1).
    destruct (IH st1) as (st' & Hrun & Ht & Hl).
    exists st'. split; [by rewrite for_cons, Hrun1|]. split; [congruence|].
    intros j. destruct (Hl j) as [Hu Hd]. destruct (Hl1 j) as [Hu1 Hd1].
    rewrite Hu, Hd, Hu1, Hd1, fmap_cons. simpl.
    destruct (use st !! j), (dur st !! j), (decide (j = i)) as [Heq|Hne],
      (decide (j ∈ l.*1)) as [Hin|Hnin], (decide (j ∈ i :: l.*1)) as [Hin'|Hnin'];
      try done;
      try (exfalso; apply Hnin'; subst; by constructor);
      try (exfalso; apply elem_of_cons in Hin' as [?|?]; done).
Qed.

(** X1. The module-level loop keeps every value a session already holds
    and gives the images without one the defaults: included, 200 ms.  It
    does not touch the total, never raises, and leaves the session
    initialised. *)
Theorem initialise_session_defaults (image_files : list string) (st : session_state) :
  ∃ st', initialise_session image_files st = (st', Ok tt) ∧
         initialised image_files st' ∧
         total_duration st' = total_duration st ∧
         ∀ j, use st' !! j =
                match use st !! j with
                | Some b => Some b
                | None => if decide (j < length image_files)%nat
                          then Some true else None
                end ∧
              dur st' !! j =
                match dur st !! j with
                | Some d => Some d
                | None => if decide (j < length image_files)%nat
                          then Some 200%Z else None
                end.
Proof.
  destruct (for_init_lookup (enumerate image_files) st) as (st' & Hrun & Ht & Hl).
  exists st'. split; [done|].
  assert (Hl' : ∀ j, use st' !! j =
                match use st !! j with
                | Some b => Some b
                | None => if decide (j < length image_files)%nat
                          then Some true else None
                end ∧
              dur st' !! j =
                match dur st !! j with
                | Some d => Some d
                | None => if decide (j < length image_files)%nat
                          then Some 200%Z else None
                end).
  { intros j. destruct (Hl j) as [Hu Hd]. rewrite Hu, Hd, fst_enumerate.
    destruct (use st !! j), (dur st !! j),
      (decide (j ∈ seq 0 (length image_files))) as [Hin|Hnin],
      (decide (j < length image_files)%nat) as [Hlt|Hge]; try done;
      try (apply elem_of_seq in Hin; lia);
      try (exfalso; apply Hnin, elem_of_seq; lia). }
  split; [|done].
  intros i Hi. destruct (Hl' i) as [Hu Hd]. split.
  - rewrite Hu. repeat case_match; eauto; lia.
  - rewrite Hd. repeat case_match; eauto; lia.
Qed.

(** ** Sessions with a missing key *)

Lemma filterM_get_use_keys (l : list nat) (st : session_state) idx :
  snd (filterM get_use l st) = Ok idx → ∀ i, i ∈ l → is_Some (use st !! i).
Proof.
  revert idx. induction l as [|j l IH]; intros idx; simpl.
  - intros _ i Hi. by apply elem_of_nil in Hi.
  - rewrite bind_run. unfold get_use at 1.
    destruct (use st !! j) as [b|] eqn:Hb; [|done].
    rewrite bind_run.
    destruct (filterM get_use l st) as [st' [e|r]] eqn:Hr; simpl in *; [done|].
    intros _ i Hi. apply elem_of_cons in Hi as [->|Hi]; [by eauto|].
    by apply (IH r).
Qed.

Lemma mapM_get_dur_keys (l : list nat) (st : session_state) ds :
  snd (mapM get_dur l st) = Ok ds → ∀ i, i ∈ l → is_Some (dur st !! i).
Proof.
  revert ds. induction l as [|j l IH]; intros ds; simpl.
  - intros _ i Hi. by apply elem_of_nil in Hi.
  - rewrite bind_run. unfold get_dur at 1.
    destruct (dur st !! j) as [d|] eqn:Hd; [|done].
    rewrite bind_run.
    destruct (mapM get_dur l st) as [st' [e|r]] eqn:Hr; simpl in *; [done|].
    intros _ i Hi. apply elem_of_cons in Hi as [->|Hi]; [by eauto|].
    by apply (IH r).
Qed.

(** The selection is read only when every checkbox key and the duration
    key of every included image are present. *)
Lemma get_selected_needs_keys (image_files : list string) (st : session_state) idx ds :
  snd (get_selected_indices_and_durations image_files st) = Ok (idx, ds) →
  (∀ i, (i < length image_files)%nat → is_Some (use st !! i)) ∧
  (∀ i, included image_files st i → is_Some (dur st !! i)).
Proof.
  intros Hok. pose proof (get_selected_ok image_files st idx ds Hok) as [-> _].
  revert Hok. unfold get_selected_indices_and_durations. rewrite bind_run.
  pose proof (filterM_get_use_state (fst <$> enumerate image_files) st) as H1.
  pose proof (filterM_get_use_ok (fst <$> enumerate image_files) st) as H1'.
  pose proof (filterM_get_use_keys (fst <$> enumerate image_files) st) as H1k.
  destruct (filterM get_use _ st) as [st1 [e|idx']]; simpl in *; [done|]. subst st1.
  rewrite bind_run. pose proof (mapM_get_dur_keys idx' st) as H2k.
  destruct (mapM get_dur idx' st) as [st2 [e|ds']]; simpl in *; [done|].
  intros _. split.
  - intros i Hi. apply (H1k idx' eq_refl). rewrite fst_enumerate, elem_of_seq. lia.
  - intros i Hi. apply (H2k ds' eq_refl).
    rewrite (H1' idx' eq_refl), fst_enumerate. by apply elem_of_selection.
Qed.

(** X2. When the checkbox key of an image is missing, or the duration
    key of an included image is, reading the selection raises [KeyError],
    and so do both callbacks, before anything is written: the session is
    left exactly as it was. *)
Theorem callbacks_missing_key (image_files : list string) (st : session_state) (i : nat) :
  (i < length image_files)%nat →
  use st !! i = None ∨ (use st !! i = Some true ∧ dur st !! i = None) →
  get_selected_indices_and_durations image_files st = (st, Raise KeyError) ∧
  update_total_duration image_files st = (st, Raise KeyError) ∧
  rescale_individual_durations image_files st = (st, Raise KeyError).
Proof.
  intros Hi Hmiss.
  assert (Hsel : get_selected_indices_and_durations image_files st
                 = (st, Raise KeyError)).
  { pose proof (get_selected_state image_files st) as Hst.
    pose proof (get_selected_raises image_files st) as Hr.
    pose proof (get_selected_needs_keys image_files st) as Hk.
    destruct (get_selected_indices_and_durations image_files st)
      as [st' [e|[idx ds]]]; simpl in *; subst st'.
    - by rewrite (Hr e eq_refl).
    - exfalso. destruct (Hk idx ds eq_refl) as [Hu Hd].
      destruct Hmiss as [Hnone|[Hsome Hnone]].
      + destruct (Hu i Hi) as [b Hb]. congruence.
      + destruct (Hd i) as [d Hd']; [done|]. congruence. }
  split; [done|]. split.
  - by rewrite update_total_unfold, Hsel.
  - by rewrite rescale_unfold, Hsel.
Qed.

Lemma callbacks_missing_key_witness :
  get_selected_indices_and_durations three_files broken_session
    = (broken_session, Raise KeyError) ∧
  update_total_duration three_files broken_session = (broken_session, Raise KeyError) ∧
  rescale_individual_durations three_files broken_session
    = (broken_session, Raise KeyError).
Proof.
  apply (callbacks_missing_key three_files broken_session 2).
  - simpl. lia.
  - right. split; reflexivity.
Defined.

(** ** Recomputing the total *)

Lemma filterM_get_use_total_irrelevant (l : list nat) (st : session_state) (v : Z) :
  snd (filterM get_use l (SessionState (use st) (dur st) v)) =
  snd (filterM get_use l st).
Proof.
  induction l as [|i l IH]; simpl; [done|].
  rewrite !bind_run. unfold get_use at 1 3. simpl.
  destruct (use st !! i) as [b|]; [|done].
  rewrite !bind_run.
  destruct (filterM get_use l st) as [st1 [e|r]],
    (filterM get_use l (SessionState (use st) (dur st) v)) as [st2 [e'|r']];
    simplify_eq/=; done.
Qed.

Lemma mapM_get_dur_total_irrelevant (l : list nat) (st : session_state) (v : Z) :
  snd (mapM get_dur l (SessionState (use st) (dur st) v)) =
  snd (mapM get_dur l st).
Proof.
  induction l as [|i l IH]; simpl; [done|].
  rewrite !bind_run. unfold get_dur at 1 3. simpl.
  destruct (dur st !! i) as [d|]; [|done].
  rewrite !bind_run.
  destruct (mapM get_dur l st) as [st1 [e|r]],
    (mapM get_dur l (SessionState (use st) (dur st) v)) as [st2 [e'|r']];
    simplify_eq/=; done.
Qed.

(** What is selected does not depend on the stored total. *)
Lemma get_selected_total_irrelevant (image_files : list string) (st : session_state) (v : Z) :
  snd (get_selected_indices_and_durations image_files (SessionState (use st) (dur st) v)) =
  snd (get_selected_indices_and_durations image_files st).
Proof.
  unfold get_selected_indices_and_durations. rewrite !bind_run.
  pose proof (filterM_get_use_total_irrelevant (fst <$> enumerate image_files) st v) as H1.
  pose proof (filterM_get_use_state (fst <$> enumerate image_files) st) as H2.
  pose proof (filterM_get_use_state (fst <$> enumerate image_files)
                (SessionState (use st) (dur st) v)) as H3.
  destruct (filterM get_use _ st) as [st1 [e|idx]],
    (filterM get_use _ (SessionState (use st) (dur st) v)) as [st2 [e'|idx']];
    simpl in *; try congruence. subst st1 st2.
  assert (idx' = idx) as -> by congruence.
  rewrite !bind_run.
  pose proof (mapM_get_dur_total_irrelevant idx st v) as H4.
  destruct (mapM get_dur idx st) as [st1 [e|ds]],
    (mapM get_dur idx (SessionState (use st) (dur st) v)) as [st2 [e'|ds']];
    simplify_eq/=; done.
Qed.

(** X3. Whatever the session, [update_total_duration] leaves every
    checkbox and every duration as it was, and running it a second time
    changes nothing more. *)
Theorem update_total_duration_idempotent (image_files : list string) (st : session_state) :
  use (fst (update_total_duration image_files st)) = use st ∧
  dur (fst (update_total_duration image_files st)) = dur st ∧
  update_total_duration image_files (fst (update_total_duration image_files st)) =
    update_total_duration image_files st.
Proof.
  rewrite !update_total_unfold.
  pose proof (get_selected_state image_files st) as Hst.
  destruct (get_selected_indices_and_durations image_files st)
    as [st' [e|[idx ds]]] eqn:Hsel; simpl in Hst; subst st'.
  - simpl. rewrite Hsel. done.
  - simpl. split; [done|]. split; [done|].
    pose proof (get_selected_total_irrelevant image_files st (sum ds)) as Hirr.
    pose proof (get_selected_state image_files
                  (SessionState (use st) (dur st) (sum ds))) as Hst'.
    rewrite Hsel in Hirr. simpl in Hirr.
    destruct (get_selected_indices_and_durations image_files
                (SessionState (use st) (dur st) (sum ds)))
      as [st2 [e|[idx' ds']]]; simpl in *; subst st2; [done|].
    by injection Hirr as -> ->.
Qed.

(** ** The even distribution, summed *)

Lemma sum_upto_const (st st' : session_state) (v : Z) (n : nat) :
  use st' = use st →
  (∀ i, (i < n)%nat → included_b st i = true → dur_of st' i = v) →
  sum_upto st' n = (v * count_upto st n)%Z.
Proof.
  intros Huse. induction n as [|n IH]; intros Hv; simpl; [lia|].
  rewrite IH by (intros i Hi; apply Hv; lia).
  assert (Hbn : included_b st' n = included_b st n)
    by (unfold included_b; by rewrite Huse).
  rewrite Hbn. specialize (Hv n ltac:(lia)).
  destruct (included_b st n); [rewrite (Hv eq_refl)|]; lia.
Qed.

(** X4. In the zero-total branch the new durations sum to the target
    minus its remainder modulo the number of included items: what
    [T // N] drops is lost, and the stored target is not adjusted. *)
Theorem rescale_zero_total_sum (image_files : list string) (st : session_state) :
  initialised image_files st →
  (∃ i, included image_files st i) →
  sum_included image_files st = 0%Z →
  ∃ st', rescale_individual_durations image_files st = (st', Ok tt) ∧
         sum_included image_files st' =
           (total_duration st - total_duration st `mod` count_included image_files st)%Z ∧
         total_duration st' = total_duration st.
Proof.
  intros Hinit Hex Hsum.
  rewrite rescale_unfold, get_selected_total by done.
  rewrite sum_selection, Hsum, truthy_selection by done. simpl.
  unfold floordiv. rewrite len_selection.
  pose proof (count_included_pos _ _ Hex) as Hpos.
  destruct (Z.eqb_spec (count_included image_files st) 0) as [?|_]; [lia|].
  set (v := (total_duration st `div` count_included image_files st)%Z).
  destruct (for_set_dur (selection image_files st) v st) as (st' & Hrun & Hfr & Hv).
  exists st'. split; [done|]. destruct Hfr as (Huse & Htot & _).
  split; [|done].
  unfold sum_included. rewrite (sum_upto_const st st' v) ; [|done|].
  - fold (count_included image_files st).
    pose proof (Z.div_mod (total_duration st) (count_included image_files st)
                  ltac:(lia)) as Hdm.
    fold v in Hdm. lia.
  - intros i Hi Hb. unfold dur_of. rewrite (Hv i); [done|].
    apply elem_of_selection, included_b_true. done.
Qed.

Lemma rescale_zero_total_sum_witness :
  ∃ st', rescale_individual_durations three_files zero_session = (st', Ok tt) ∧
         sum_included three_files st' =
           (total_duration zero_session
            - total_duration zero_session `mod` count_included three_files zero_session)%Z ∧
         total_duration st' = total_duration zero_session.
Proof.
  apply (rescale_zero_total_sum three_files zero_session).
  - intros i Hi. three_indices i; split; eexists; reflexivity.
  - exists 0%nat. split; [simpl; lia|reflexivity].
  - reflexivity.
Defined.

(** ** Rescaling to the total just recomputed *)

Lemma div_eucl_div_mod (a b : Z) : Z.div_eucl a b = ((a `div` b)%Z, (a `mod` b)%Z).
Proof. unfold Z.div, Z.modulo. by destruct (Z.div_eucl a b). Qed.

(** A positive integer divided by itself is exactly [1.0], whatever its
    size. *)
Lemma truediv_self (c : Z) : (0 < c)%Z → Float.truediv c c = Ok float_one.
Proof.
  intros Hc. unfold Float.truediv.
  destruct (Z.eqb_spec c 0) as [?|_]; [lia|].
  destruct c as [|p|p]; try lia.
  cbn [Float.exact_of_int SFdiv xorb]. unfold Float.prec, Float.emax.
  unfold SFdiv_core_binary, fexp, emin.
  replace (Z.min (Z.max (Zdigits2 (Zpos p) + 0 - (Zdigits2 (Zpos p) + 0) - 53)
                        (3 - 1024 - 53)) (0 - 0))%Z with (-53)%Z by lia.
  change (0 - 0 - -53)%Z with 53%Z. cbv iota.
  rewrite Z.shiftl_mul_pow2 by lia. rewrite (Z.mul_comm (Zpos p)).
  rewrite div_eucl_div_mod, Z.div_mul, Z.mod_mul by lia.
  unfold new_location, new_location_even, new_location_odd.
  destruct (Z.even (Zpos p)); reflexivity.
Qed.

Section ScaleByOne.

Local Open Scope R_scope.

(** Multiplying an integer below [2 ^ 53] by [1.0] and truncating gives
    the integer back. *)
Lemma scaled_one (d : Z) : (0 <= d < 2 ^ 53)%Z → scaled float_one d = Ok d.
Proof.
  intros [Hd0 Hd53]. destruct (Z.eq_dec d 0%Z) as [->|Hnz]; [reflexivity|].
  destruct (of_int_exact d ltac:(lia)) as (md & ed & Hof & Hmd & Hed & HD).
  unfold scaled, Float.mul_int. rewrite Hof. unfold float_one, Float.prec, Float.emax.
  cbn [SFmul xorb].
  set (M := Zpos (md * 4503599627370496)).
  assert (HM : M = (Zpos md * 2 ^ 52)%Z) by (unfold M; rewrite Pos2Z.inj_mul; done).
  assert (HdM : Zdigits2 M = 105%Z).
  { apply Zdigits2_unique; [|lia]. rewrite HM.
    replace (105 - 1)%Z with (52 + 52)%Z by lia.
    replace 105%Z with (53 + 52)%Z by lia. rewrite !Z.pow_add_r by lia.
    split; [apply Z.mul_le_mono_nonneg_r; lia|apply Z.mul_lt_mono_pos_r; lia]. }
  destruct (binary_round_aux_normal false M (ed + -52) loc_Exact (IZR M))
    as (m' & e' & Hrun & Hm' & He' & Herr); [lia|done|lia|lia|lia|].
  rewrite Hrun. destruct (to_int_floor m' e') as (r & Hint & Hr). rewrite Hint.
  (* the rounded product is the exact one *)
  assert (HX : IZR M * bpow (ed + -52) = IZR (Zpos md) * bpow ed).
  { rewrite HM, mult_IZR, <- bpow_IZR, Rmult_assoc, <- bpow_add by lia.
    do 2 f_equal. lia. }
  rewrite HX in Herr. apply Rabs_bounds in Herr.
  pose proof (bpow_pos ed) as HB.
  assert (Hu : u53 * IZR (2 ^ 53) = 1).
  { unfold u53. rewrite <- bpow_IZR, <- bpow_add by lia. apply bpow_0. }
  assert (Hu0 : 0 < u53) by apply u53_bounds.
  assert (HRmd : 0 < IZR (Zpos md) < IZR (2 ^ 53)) by (split; apply IZR_lt; lia).
  assert (HRm' : IZR (2 ^ 52) <= IZR (Zpos m')) by (apply IZR_le; lia).
  assert (Hsmall : u53 * IZR (Zpos md) < 1) by nra.
  assert (Hval : F2R (Zpos m') e' = IZR d).
  { rewrite <- HD. unfold F2R in *.
    assert (He2 : e' = ed ∨ e' = (ed + 1)%Z) by lia.
    destruct He2 as [-> | ->].
    - assert (Hclose : -1 < IZR (Zpos m') - IZR (Zpos md) < 1) by (split; nra).
      assert (Zpos m' = Zpos md) as ->; [|done].
      assert (Zpos m' < Zpos md + 1)%Z by (apply lt_IZR; rewrite plus_IZR; lra).
      assert (Zpos md < Zpos m' + 1)%Z by (apply lt_IZR; rewrite plus_IZR; lra).
      lia.
    - exfalso. rewrite bpow_succ in Herr.
      assert (Hclose : -1 < 2 * IZR (Zpos m') - IZR (Zpos md) < 1) by (split; nra).
      assert (2 * Zpos m' < Zpos md + 1)%Z
        by (apply lt_IZR; rewrite plus_IZR, mult_IZR; lra).
      assert (H52 : (2 * 2 ^ 52 = 2 ^ 53)%Z) by done. lia. }
  rewrite Hval in Hr. f_equal.
  assert (r < d + 1)%Z by (apply lt_IZR; rewrite plus_IZR; lra).
  assert (d < r + 1)%Z by (apply lt_IZR; rewrite plus_IZR; lra).
  lia.
Qed.

End ScaleByOne.

(** A loop that changed only the durations at [idx], and gave each the
    value it had, changed nothing. *)
Lemma frame_same_values (idx : list nat) (st st' : session_state) :
  frame idx st st' → (∀ i, i ∈ idx → dur st' !! i = dur st !! i) → st' = st.
Proof.
  intros (Hu & Ht & Hd) Hsame. destruct st as [u d t], st' as [u' d' t'].
  simpl in *. subst. f_equal. apply map_eq. intros j.
  destruct (decide (j ∈ idx)); auto.
Qed.

Lemma sum_upto_zero (st : session_state) (n : nat) :
  (∀ i, (i < n)%nat → included_b st i = true → (0 ≤ dur_of st i)%Z) →
  sum_upto st n = 0%Z →
  ∀ i, (i < n)%nat → included_b st i = true → dur_of st i = 0%Z.
Proof.
  intros Hnn Hsum i Hi Hb.
  destruct (sum_upto_bounds st n Hnn) as [_ Hle].
  specialize (Hle i Hi Hb). specialize (Hnn i Hi Hb). lia.
Qed.

Lemma sum_upto_ext (st st' : session_state) (n : nat) :
  use st' = use st → dur st' = dur st →
  sum_upto st' n = sum_upto st n ∧ count_upto st' n = count_upto st n.
Proof.
  intros Hu Hd. induction n as [|n [IHs IHc]]; [done|]. simpl.
  unfold included_b, dur_of. rewrite Hu, Hd, IHs, IHc. done.
Qed.

(** X5. The two callbacks compose to the identity: once the total has
    been recomputed, rescaling to it leaves every duration as it is, as
    long as the included durations are non-negative and below [2 ^ 53]
    (the scale is exactly [1.0], and multiplying by it is exact). *)
Theorem update_then_rescale_identity (image_files : list string) (st : session_state) :
  initialised image_files st →
  (∀ i, included image_files st i → (0 ≤ dur_of st i < 2 ^ 53)%Z) →
  rescale_individual_durations image_files
    (fst (update_total_duration image_files st)) =
  (fst (update_total_duration image_files st), Ok tt).
Proof.
  intros Hinit Hrange.
  rewrite update_total_unfold, get_selected_total by done. simpl fst.
  rewrite sum_selection.
  set (c := sum_included image_files st).
  set (st1 := SessionState (use st) (dur st) c).
  assert (Hinit1 : initialised image_files st1) by done.
  assert (Hsel1 : selection image_files st1 = selection image_files st) by done.
  assert (Hc1 : sum_included image_files st1 = c)
    by (apply (sum_upto_ext st st1); done).
  assert (Hn1 : count_included image_files st1 = count_included image_files st)
    by (apply (sum_upto_ext st st1); done).
  destruct (sum_upto_bounds st (length image_files)) as [Hc0 _].
  { intros i Hi Hb. apply Hrange, included_b_true. done. }
  fold (sum_included image_files st) in Hc0. fold c in Hc0.
  rewrite rescale_unfold, get_selected_total by done.
  destruct (truthy (selection image_files st1)) eqn:Htr; [|done].
  simpl negb. cbv iota. rewrite sum_selection, Hc1.
  assert (Hdur : ∀ i, i ∈ selection image_files st1 →
                      dur st1 !! i = Some (dur_of st i) ∧ (0 ≤ dur_of st i < 2 ^ 53)%Z).
  { intros i Hi. rewrite Hsel1 in Hi. apply elem_of_selection in Hi.
    split; [|by apply Hrange]. destruct (Hinit i) as [_ [d Hd]]; [apply Hi|].
    unfold dur_of. simpl. rewrite Hd. done. }
  destruct (Z.eqb_spec c 0) as [Hz|Hnz].
  - (* all included durations are 0, and so is the target *)
    unfold floordiv. rewrite len_selection.
    assert (Hpos : (0 < count_included image_files st1)%Z).
    { rewrite <- len_selection. destruct (selection image_files st1); [done|].
      unfold len. simpl. lia. }
    destruct (Z.eqb_spec (count_included image_files st1) 0) as [?|_]; [lia|].
    simpl total_duration. rewrite Hz, Z.div_0_l by lia.
    destruct (for_set_dur (selection image_files st1) 0%Z st1) as (st' & Hrun & Hfr & Hv).
    rewrite Hrun. f_equal. apply (frame_same_values _ _ _ Hfr).
    intros i Hi. rewrite (Hv i Hi). destruct (Hdur i Hi) as [-> _]. f_equal.
    symmetry. rewrite Hsel1 in Hi. apply elem_of_selection, included_b_true in Hi as [Hlt Hb].
    apply (sum_upto_zero st (length image_files)); [|done|done|done].
    intros j Hj Hbj. apply Hrange, included_b_true. done.
  - (* the scale is 1.0 *)
    simpl total_duration. rewrite truediv_self by lia.
    destruct (for_rescale_body float_one (selection image_files st1) st1)
      as (st' & Hrun & Hfr & Hres).
    { apply NoDup_selection. }
    { intros i Hi. destruct (Hdur i Hi) as [Hd Hr].
      exists (dur_of st i), (dur_of st i). split; [done|]. by apply scaled_one. }
    rewrite Hrun. f_equal. apply (frame_same_values _ _ _ Hfr).
    intros i Hi. destruct (Hres i Hi) as (d & Hd & Hd').
    destruct (Hdur i Hi) as [Hd1 Hr]. rewrite Hd1 in Hd. injection Hd as <-.
    rewrite scaled_one in Hd' by done. rewrite Hd1.
    destruct (dur st' !! i) as [r'|]; simpl in Hd'; congruence.
Qed.

Lemma update_then_rescale_identity_witness :
  rescale_individual_durations three_files
    (fst (update_total_duration three_files default_session)) =
  (fst (update_total_duration three_files default_session), Ok tt).
Proof.
  apply (update_then_rescale_identity three_files default_session).
  - intros i Hi. three_indices i; split; eexists; reflexivity.
  - intros i [Hi _]. three_indices i; split; try discriminate; reflexivity.
Defined.

(** ** Signs *)

Lemma binary_round_aux_sign (sx : bool) (m e : Z) (l : location) :
  match binary_round_aux 53 1024 sx m e l with
  | S754_finite s _ _ => s = sx
  | _ => True
  end.
Proof.
  unfold binary_round_aux. destruct (shr_fexp 53 1024 m e l) as [mrs1 e1].
  destruct (shr_fexp 53 1024 _ e1 loc_Exact) as [mrs2 e2].
  destruct (shr_m mrs2); [done| |done]. by destruct (Z.leb e2 _).
Qed.

Lemma of_int_nonneg (d : Z) (fd : Float.float) :
  (0 ≤ d)%Z → Float.of_int d = Ok fd → nonneg_float fd.
Proof.
  intros Hd. unfold Float.of_int, Float.finite_or_overflow, binary_normalize.
  destruct d as [|p|p]; try lia.
  - by intros [= <-].
  - unfold binary_round, Float.prec, Float.emax.
    destruct (shl_align p 0 _) as [mz ez].
    pose proof (binary_round_aux_sign false (Zpos mz) ez loc_Exact) as Hs.
    destruct (binary_round_aux 53 1024 false (Zpos mz) ez loc_Exact);
      intros [= <-]; simpl; by subst.
Qed.

Lemma truediv_nonneg (t c : Z) (scale : Float.float) :
  (0 ≤ t)%Z → (0 < c)%Z → Float.truediv t c = Ok scale → nonneg_float scale.
Proof.
  intros Ht Hc. unfold Float.truediv, Float.finite_or_overflow.
  destruct (Z.eqb_spec c 0) as [?|_]; [lia|].
  destruct c as [|pc|pc]; try lia. destruct t as [|pt|pt]; try lia.
  - by intros [= <-].
  - cbn [Float.exact_of_int SFdiv xorb]. unfold Float.prec, Float.emax.
    destruct (SFdiv_core_binary 53 1024 (Zpos pt) 0 (Zpos pc) 0) as [[mz ez] lz].
    pose proof (binary_round_aux_sign false mz ez lz) as Hs.
    destruct (binary_round_aux 53 1024 false mz ez lz);
      intros [= <-]; simpl; by subst.
Qed.

(** A non-negative duration scaled by a non-negative float is never
    negative. *)
Lemma scaled_nonneg (scale : Float.float) (d r : Z) :
  nonneg_float scale → (0 ≤ d)%Z → scaled scale d = Ok r → (0 ≤ r)%Z.
Proof.
  intros Hs Hd. unfold scaled, Float.mul_int.
  destruct (Float.of_int d) as [e|fd] eqn:Hof; [done|].
  pose proof (of_int_nonneg d fd Hd Hof) as Hfd.
  unfold Float.prec, Float.emax.
  assert (Hprod : match SFmul 53 1024 fd scale with
                  | S754_finite true _ _ => False
                  | _ => True
                  end).
  { destruct fd as [sf| | |[] mf ef], scale as [ss| | |[] ms es]; try done.
    cbn [SFmul xorb].
    pose proof (binary_round_aux_sign false (Zpos (mf * ms)) (ef + es) loc_Exact) as H.
    destruct (binary_round_aux 53 1024 false _ _ loc_Exact); try done. by subst. }
  destruct (SFmul 53 1024 fd scale) as [s| | |[] m e]; try done; simpl.
  - intros [= <-]. lia.
  - intros [= <-]. destruct e as [|k|k].
    + lia.
    + pose proof (Z.pow_pos_nonneg 2 (Zpos k)). lia.
    + apply Z.div_pos; [lia|]. apply Z.pow_pos_nonneg; lia.
Qed.

(** A property of the session that each iteration keeps is kept by the
    loop, whether or not it runs to its end. *)
Lemma for_invariant {A} (P : session_state → Prop) (l : list A)
    (body : A → M session_state unit) :
  (∀ x st, x ∈ l → P st → P (fst (body x st))) →
  ∀ st, P st → P (fst (for_ l body st)).
Proof.
  induction l as [|x l IH]; intros Hbody st HP; [done|].
  rewrite for_cons.
  pose proof (Hbody x st ltac:(by left) HP) as H1.
  destruct (body x st) as [st1 [e|[]]]; simpl in *; [done|].
  apply IH; [|done]. intros y st' Hy. apply Hbody. by right.
Qed.

(** X6. A rescale to a non-negative target never makes a duration
    negative: if the included durations are non-negative before, they are
    non-negative after, in both branches, whatever their size, and also
    when the callback raises half-way. *)
Theorem rescale_keeps_nonnegative (image_files : list string) (st : session_state) :
  (∀ i, included image_files st i → (0 ≤ dur_of st i)%Z) →
  (0 ≤ total_duration st)%Z →
  ∀ i, included image_files st i →
       (0 ≤ dur_of (fst (rescale_individual_durations image_files st)) i)%Z.
Proof.
  intros Hnn Ht. rewrite rescale_unfold.
  pose proof (get_selected_state image_files st) as Hst.
  pose proof (get_selected_ok image_files st) as Hok.
  destruct (get_selected_indices_and_durations image_files st)
    as [st' [e|[indices durations]]]; simpl in Hst; subst st'; [done|].
  destruct (Hok _ _ eq_refl) as [-> ->].
  destruct (truthy (selection image_files st)) eqn:Htr; [|done]. simpl negb. cbv iota.
  assert (Hinv : ∀ v, (0 ≤ v)%Z → ∀ j st0,
            (∀ i, included image_files st i → (0 ≤ dur_of st0 i)%Z) →
            ∀ i, included image_files st i → (0 ≤ dur_of (fst (set_dur j v st0)) i)%Z).
  { intros v Hv j st0 HP i Hi. unfold dur_of. simpl.
    destruct (decide (j = i)) as [->|Hne].
    - by rewrite lookup_insert_eq.
    - rewrite lookup_insert_ne by done. by apply HP. }
  rewrite sum_selection.
  destruct (sum_upto_bounds st (length image_files)) as [Hc0 _].
  { intros j Hj Hb. apply Hnn, included_b_true. done. }
  fold (sum_included image_files st) in Hc0.
  destruct (Z.eqb_spec (sum_included image_files st) 0) as [Hz|Hnz].
  - unfold floordiv. destruct (Z.eqb_spec (len (selection image_files st)) 0) as [|Hlen];
      [done|].
    apply (for_invariant
             (λ st0, ∀ i, included image_files st i → (0 ≤ dur_of st0 i)%Z)); [|done].
    intros j st0 _. apply Hinv. apply Z.div_pos; [done|]. unfold len in *. lia.
  - destruct (Float.truediv _ _) as [e|scale] eqn:Hdiv; [done|].
    pose proof (truediv_nonneg (total_duration st) (sum_included image_files st)
                  scale Ht ltac:(lia) Hdiv) as Hscale.
    apply (for_invariant
             (λ st0, ∀ i, included image_files st i → (0 ≤ dur_of st0 i)%Z)); [|done].
    intros j st0 Hj HP. rewrite rescale_body_run.
    destruct (dur st0 !! j) as [d|] eqn:Hd; [|done].
    destruct (scaled scale d) as [e|r] eqn:Hs; [done|].
    apply Hinv; [|done]. apply (scaled_nonneg scale d r); [done| |done].
    apply elem_of_selection in Hj. specialize (HP j Hj).
    unfold dur_of in HP. by rewrite Hd in HP.
Qed.

Lemma rescale_keeps_nonnegative_witness :
  (0 ≤ dur_of (fst (rescale_individual_durations one_file huge_session)) 0)%Z.
Proof.
  apply (rescale_keeps_nonnegative one_file huge_session).
  - intros i [Hi _]. destruct i as [|i]; simpl in Hi; [|lia]. discriminate.
  - discriminate.
  - split; [simpl; lia|reflexivity].
Defined.

(** ** The assembler when an image cannot be read *)

Lemma for_app {S A} (l k : list A) (body : A → M S unit) (st : S) :
  for_ (l ++ k) body st =
  match for_ l body st with
  | (st', inr _) => for_ k body st'
  | (st', inl e) => (st', Raise e)
  end.
Proof.
  revert st. induction l as [|x l IH]; intros st.
  - done.
  - rewrite <- app_comm_cons, !for_cons. destruct (body x st) as [st1 [e|[]]]; [done|].
    apply IH.
Qed.

Lemma zip_items_then (items : list item) (p : string) (d : Z)
    (rest_paths : list string) (rest_durations : list Z) :
  zip ((item_path <$> items) ++ p :: rest_paths)
      ((item_duration <$> items) ++ d :: rest_durations) =
  ((λ it, (item_path it, item_duration it)) <$> items)
    ++ (p, d) :: zip rest_paths rest_durations.
Proof. induction items as [|it items IH]; simpl; [done|]. f_equal. exact IH. Qed.

(** X7. When the images of the first items can be read and the next
    one cannot, the call raises [FileNotFoundError] at that item and
    nothing after it is looked at.  If no item came before, nothing is
    written: the world, the file at the output path included, is what it
    was.  Otherwise the file at the output path has been started afresh
    and is left finished, holding the frames of the items before. *)
Theorem generate_video_unreadable_image (w : world) (items : list item)
    (p : string) (d : Z) (rest_paths : list string) (rest_durations : list Z)
    (out : string) :
  loaded w items →
  images w !! p = None →
  accepted ((item_duration <$> items) ++ d :: rest_durations) →
  generate_video ((item_path <$> items) ++ p :: rest_paths)
                 ((item_duration <$> items) ++ d :: rest_durations) out w =
    (match items with
     | [] => w
     | _ :: _ => assembled w out (expected_frames items)
     end,
     Raise FileNotFoundError).
Proof.
  intros Hl Hp Hacc. rewrite generate_video_unfold, accepted_truthy by done.
  simpl negb. cbv iota. rewrite zip_items_then.
  unfold with_local. rewrite bind_run, for_app.
  change (w, Writer out fps_25 []) with (running w out []).
  rewrite for_assemble_body by done. simpl app.
  rewrite for_cons. unfold assemble_body at 1.
  rewrite bind_run, on_world_imread, Hp, close_running. simpl.
  destruct items as [|it items]; [done|]. by rewrite written_frames.
Qed.

Lemma generate_video_unreadable_image_witness :
  generate_video ["a.png"; "missing.png"; "b.png"] [90; 40; 40]%Z "output.mp4" two_images =
    (assembled two_images "output.mp4" [image_A; image_A], Raise FileNotFoundError) ∧
  generate_video ["missing.png"; "b.png"] [40; 40]%Z "output.mp4" two_images =
    (two_images, Raise FileNotFoundError).
Proof.
  split.
  - apply (generate_video_unreadable_image two_images [Item "a.png" image_A 90]
             "missing.png" 40 ["b.png"] [40]%Z "output.mp4").
    + repeat constructor.
    + reflexivity.
    + exists 90%Z. split; [by left|lia].
  - apply (generate_video_unreadable_image two_images []
             "missing.png" 40 ["b.png"] [40]%Z "output.mp4").
    + constructor.
    + reflexivity.
    + exists 40%Z. split; [by left|lia].
Defined.

(** ** What the assembler leaves alone *)

Lemma for_invariant_fst {S A} (P : S → Prop) (l : list A) (body : A → M S unit) :
  (∀ x s, P s → P (fst (body x s))) →
  ∀ s, P s → P (fst (for_ l body s)).
Proof.
  intros Hbody. induction l as [|x l IH]; intros s HP; [done|].
  rewrite for_cons. pose proof (Hbody x s HP) as H1.
  destruct (body x s) as [s1 [e|[]]]; simpl in *; [done|]. by apply IH.
Qed.

Lemma append_data_writes_at (out : string) (img : image) (w0 : world)
    (s : world * writer) :
  writes_at out w0 s → writes_at out w0 (fst (append_data img s)).
Proof.
  destruct s as [w wr]. intros [Hp Hv]. simpl in Hp. split; [done|].
  intros p Hne. simpl. rewrite lookup_insert_ne by congruence. by apply Hv.
Qed.

Lemma close_writes_at (out : string) (w0 : world) (s : world * writer) :
  writes_at out w0 s → writes_at out w0 (fst (close s)).
Proof.
  destruct s as [w wr]. intros [Hp Hv]. simpl in Hp. unfold close.
  destruct (writer_sent wr); [done|]. split; [done|].
  intros p Hne. simpl. rewrite lookup_insert_ne by congruence. by apply Hv.
Qed.

Lemma assemble_body_writes_at (out : string) (x : string * Z) (w0 : world)
    (s : world * writer) :
  writes_at out w0 s → writes_at out w0 (fst (assemble_body x s)).
Proof.
  intros HP. destruct x as [path duration]. unfold assemble_body.
  rewrite bind_run. destruct s as [w wr]. unfold on_world at 1, imread.
  destruct (images w !! path) as [img|]; [|done].
  rewrite bind_run. unfold lift at 1, floordiv. simpl.
  apply (for_invariant_fst (writes_at out w0)); [|done].
  intros _ s1. apply append_data_writes_at.
Qed.

(** X8. Whatever its arguments and however it ends, [generate_video]
    changes no video file other than the one at the output path. *)
Theorem generate_video_only_output (image_paths : list string) (durations : list Z)
    (out : string) (w : world) :
  ∀ p, p ≠ out →
       videos (fst (generate_video image_paths durations out w)) !! p = videos w !! p.
Proof.
  change (other_videos_kept out w (fst (generate_video image_paths durations out w))).
  rewrite generate_video_unfold. destruct (negb _); [done|].
  unfold with_local. rewrite bind_run.
  assert (H1 : writes_at out w (w, Writer out fps_25 [])) by done.
  pose proof (for_invariant_fst (writes_at out w)
                (zip image_paths durations) assemble_body
                (λ x s, assemble_body_writes_at out x w s) _ H1) as H2.
  destruct (for_ (zip image_paths durations) assemble_body (w, Writer out fps_25 []))
    as [s2 [e|[]]]; simpl in H2.
  - simpl. by apply close_writes_at.
  - pose proof (close_writes_at out w s2 H2) as H3.
    destruct (close s2) as [s3 r3]. simpl in *.
    by apply close_writes_at.
Qed.

Lemma generate_video_only_output_witness :
  videos (fst (generate_video ["a.png"; "missing.png"] [90; 40]%Z "new.mp4" two_images))
    !! "output.mp4" = videos two_images !! "output.mp4".
Proof.
  apply (generate_video_only_output ["a.png"; "missing.png"] [90; 40]%Z "new.mp4"
           two_images "output.mp4").
  discriminate.
Defined.

(** ** The length of the video *)

Lemma div_40_bounds (d : Z) :
  (40 ≤ d)%Z → (40 * Z.of_nat (repeat_count d) ≤ d ≤ 40 * Z.of_nat (repeat_count d) + 39)%Z.
Proof.
  intros Hd. unfold repeat_count.
  pose proof (Z.div_mod d 40 ltac:(lia)) as Hdm.
  pose proof (Z.mod_pos_bound d 40 ltac:(lia)) as Hm.
  assert (1 ≤ d `div` 40)%Z by (apply Z.div_le_lower_bound; lia).
  rewrite Z.max_r, Z2Nat.id by lia. lia.
Qed.

Lemma expected_frames_length (items : list item) :
  (length items ≤ length (expected_frames items))%nat ∧
  (Forall (λ it, 40 ≤ item_duration it)%Z items →
   (40 * Z.of_nat (length (expected_frames items)) ≤ sum (item_duration <$> items)
      ≤ 40 * Z.of_nat (length (expected_frames items))
        + 39 * Z.of_nat (length items))%Z).
Proof.
  induction items as [|it items [IH1 IH2]].
  - split; [done|]. intros _. rewrite fmap_nil, sum_nil. simpl. lia.
  - rewrite expected_frames_cons, length_app, length_replicate, fmap_cons, sum_cons.
    pose proof (repeat_count_positive (item_duration it)). split; [simpl; lia|].
    intros [Hit Hall]%Forall_cons. specialize (IH2 Hall).
    pose proof (div_40_bounds _ Hit). simpl length. lia.
Qed.

(** X9. A completed video has at least one frame per item; and when
    every duration is at least 40 ms, its length at 40 ms per frame is at
    most the sum of the requested durations and short of it by at most
    39 ms per item. *)
Theorem generate_video_length (w : world) (items : list item) (out : string) :
  loaded w items → accepted (item_duration <$> items) →
  ∃ fs : list image,
    generate_video (item_path <$> items) (item_duration <$> items) out w =
      (assembled w out fs, Ok tt) ∧
    (length items ≤ length fs)%nat ∧
    (Forall (λ it, 40 ≤ item_duration it)%Z items →
     (40 * Z.of_nat (length fs) ≤ sum (item_duration <$> items)
        ≤ 40 * Z.of_nat (length fs) + 39 * Z.of_nat (length items))%Z).
Proof.
  intros Hl Hacc. exists (expected_frames items).
  split; [by apply generate_video_complete|].
  apply expected_frames_length.
Qed.

Lemma generate_video_length_witness :
  ∃ fs : list image,
    generate_video ["a.png"; "b.png"] [90; 40]%Z "output.mp4" two_images =
      (assembled two_images "output.mp4" fs, Ok tt) ∧
    (2 ≤ length fs)%nat ∧
    (Forall (λ it, 40 ≤ item_duration it)%Z
            [Item "a.png" image_A 90; Item "b.png" image_B 40] →
     (40 * Z.of_nat (length fs) ≤ sum [90; 40]
        ≤ 40 * Z.of_nat (length fs) + 39 * Z.of_nat 2)%Z).
Proof.
  apply (generate_video_length two_images
           [Item "a.png" image_A 90; Item "b.png" image_B 40] "output.mp4").
  - repeat constructor.
  - exists 90%Z. split; [by left|lia].
Defined.

(** X10. Generating again from the same input, on the world the first
    run left, gives the same world: the file is overwritten by an equal
    one. *)
Theorem generate_video_again (w : world) (items : list item) (out : string) :
  loaded w items → accepted (item_duration <$> items) →
  generate_video (item_path <$> items) (item_duration <$> items) out
    (fst (generate_video (item_path <$> items) (item_duration <$> items) out w)) =
  generate_video (item_path <$> items) (item_duration <$> items) out w.
Proof.
  intros Hl Hacc. rewrite (generate_video_complete w) by done. simpl fst.
  rewrite (generate_video_complete (assembled w out (expected_frames items))) by done.
  unfold assembled. simpl. by rewrite insert_insert_eq.
Qed.

Lemma generate_video_again_witness :
  generate_video ["a.png"; "b.png"] [90; 40]%Z "output.mp4"
    (fst (generate_video ["a.png"; "b.png"] [90; 40]%Z "output.mp4" two_images)) =
  generate_video ["a.png"; "b.png"] [90; 40]%Z "output.mp4" two_images.
Proof.
  apply (generate_video_again two_images
           [Item "a.png" image_A 90; Item "b.png" image_B 40] "output.mp4").
  - repeat constructor.
  - exists 90%Z. split; [by left|lia].
Defined.

(** ** Paths *)

Lemma rfind_from_spec (s : string) :
  ∀ pos : Z, (0 ≤ pos)%Z →
    (OsPath.rfind_from OsPath.sep s pos = (-1)%Z ∧ contains_sep s = false) ∨
    ((pos ≤ OsPath.rfind_from OsPath.sep s pos)%Z ∧
     contains_sep
       (OsPath.drop_chars (Z.to_nat (OsPath.rfind_from OsPath.sep s pos - pos + 1)) s)
     = false).
Proof.
  induction s as [|a r IH]; intros pos Hpos.
  - left. done.
  - cbn [OsPath.rfind_from].
    destruct (IH (pos + 1)%Z ltac:(lia)) as [[Hnone Hno]|[Hfound Hno]].
    + rewrite Hnone. change (0 <=? -1)%Z with false. cbv iota.
      destruct (Ascii.eqb a OsPath.sep) eqn:Ha.
      * right. split; [lia|]. replace (pos - pos + 1)%Z with 1%Z by lia. done.
      * left. split; [done|]. simpl. by rewrite Ha.
    + destruct (Z.leb_spec 0 (OsPath.rfind_from OsPath.sep r (pos + 1))) as [_|?]; [|lia].
      right. split; [lia|].
      set (i := OsPath.rfind_from OsPath.sep r (pos + 1)) in *.
      replace (Z.to_nat (i - pos + 1)) with (S (Z.to_nat (i - (pos + 1) + 1))) by lia.
      done.
Qed.

(** A base name holds no separator. *)
Lemma basename_no_sep (p : string) : contains_sep (OsPath.basename p) = false.
Proof.
  unfold OsPath.basename, OsPath.rfind, OsPath.slice_from.
  destruct (rfind_from_spec p 0 ltac:(lia)) as [[Hnone Hno]|[Hfound Hno]].
  - rewrite Hnone. done.
  - by rewrite Z.sub_0_r in Hno.
Qed.

Lemma join_thumb_dir (name : string) :
  contains_sep name = false → OsPath.join THUMB_DIR name = "thumbs/" +:+ name.
Proof.
  intros Hno. unfold OsPath.join.
  assert (OsPath.startswith_sep name = false) as ->.
  { destruct name as [|a r]; [done|]. simpl in *. by apply orb_false_elim in Hno as [-> _]. }
  reflexivity.
Qed.

Lemma thumb_path_join (img_path : string) :
  OsPath.join THUMB_DIR (OsPath.basename img_path) = thumb_path_of img_path.
Proof. apply join_thumb_dir, basename_no_sep. Qed.

(** ** Properties of the thumbnail cache *)

Section ThumbnailFacts.

Variable thumbnail : image → Z * Z → image.
Variable encodable : image → string → bool.
Variable other_paths : gset string.

Lemma make_thumbnail_unfold (img_path : string) (w : world) :
  make_thumbnail thumbnail encodable other_paths img_path w =
  if bool_decide (exists_at other_paths w (thumb_path_of img_path))
  then (w, Ok (thumb_path_of img_path))
  else match images w !! img_path with
       | None => (w, Raise FileNotFoundError)
       | Some im =>
           if encodable (thumbnail im THUMB_SIZE) (thumb_path_of img_path)
           then (World (<[thumb_path_of img_path := thumbnail im THUMB_SIZE]> (images w))
                       (videos w) (errors w),
                 Ok (thumb_path_of img_path))
           else (w, Raise ValueError)
       end.
Proof.
  unfold make_thumbnail. rewrite thumb_path_join, bind_run.
  unfold path_exists, gets at 1. fold (exists_at other_paths w (thumb_path_of img_path)).
  destruct (bool_decide _); simpl negb; cbv iota.
  - rewrite bind_run. done.
  - rewrite bind_run, bind_run. unfold image_open at 1.
    destruct (images w !! img_path) as [im|]; [|done].
    unfold image_save. by destruct (encodable _ _).
Qed.

(** X11. Whatever path it is given, the thumbnail path it returns is
    [thumbs/] followed by the base name of the image path, and that base
    name holds no separator.  (The base name can be empty, as for
    [images/], or be [..]: the statement says nothing more of it.) *)
Theorem make_thumbnail_path (img_path : string) (w : world) (r : string) :
  snd (make_thumbnail thumbnail encodable other_paths img_path w) = Ok r →
  r = "thumbs/" +:+ OsPath.basename img_path ∧
  contains_sep (OsPath.basename img_path) = false.
Proof.
  rewrite make_thumbnail_unfold. intros Hr. split; [|apply basename_no_sep].
  destruct (bool_decide _); [by injection Hr|].
  destruct (images w !! img_path) as [im|]; [|done].
  destruct (encodable _ _); [by injection Hr|done].
Qed.

(** X12. When something already exists at the thumbnail path, the call
    returns that path and does nothing else: the source image is not even
    opened, so it may be missing or have changed. *)
Theorem make_thumbnail_cached (img_path : string) (w : world) :
  exists_at other_paths w (thumb_path_of img_path) →
  make_thumbnail thumbnail encodable other_paths img_path w =
    (w, Ok (thumb_path_of img_path)).
Proof.
  intros Hex. rewrite make_thumbnail_unfold. by rewrite bool_decide_eq_true_2.
Qed.

(** X13. When nothing exists at the thumbnail path and the source can
    be decoded and its thumbnail encoded, the thumbnail of size 250 x 250
    is written there and nowhere else; the source keeps its content. *)
Theorem make_thumbnail_fresh (img_path : string) (w : world) (im : image) :
  ¬ exists_at other_paths w (thumb_path_of img_path) →
  images w !! img_path = Some im →
  encodable (thumbnail im (250, 250)%Z) (thumb_path_of img_path) = true →
  make_thumbnail thumbnail encodable other_paths img_path w =
    (World (<[thumb_path_of img_path := thumbnail im (250, 250)%Z]> (images w))
           (videos w) (errors w),
     Ok (thumb_path_of img_path)) ∧
  images (fst (make_thumbnail thumbnail encodable other_paths img_path w)) !! img_path
    = Some im.
Proof.
  intros Hno Him Henc. rewrite make_thumbnail_unfold.
  rewrite bool_decide_eq_false_2 by done. rewrite Him. unfold THUMB_SIZE.
  rewrite Henc. split; [done|]. simpl. rewrite lookup_insert_ne; [done|].
  intros Heq. apply Hno. left. rewrite Heq. eauto.
Qed.

(** X14. A second call with the same path changes nothing and ends as
    the first one did: a thumbnail written once is never refreshed. *)
Theorem make_thumbnail_idempotent (img_path : string) (w : world) :
  make_thumbnail thumbnail encodable other_paths img_path
    (fst (make_thumbnail thumbnail encodable other_paths img_path w)) =
  make_thumbnail thumbnail encodable other_paths img_path w.
Proof.
  rewrite (make_thumbnail_unfold img_path w).
  destruct (bool_decide (exists_at other_paths w (thumb_path_of img_path))) eqn:Hex.
  - simpl fst. rewrite make_thumbnail_unfold, Hex. done.
  - destruct (images w !! img_path) as [im|] eqn:Him.
    + destruct (encodable _ _) eqn:Henc.
      * simpl fst. rewrite make_thumbnail_unfold.
        rewrite bool_decide_eq_true_2; [done|].
        left. simpl. rewrite lookup_insert_eq. eauto.
      * simpl fst. rewrite make_thumbnail_unfold, Hex, Him, Henc. done.
    + simpl fst. rewrite make_thumbnail_unfold, Hex, Him. done.
Qed.

(** X15. However it ends, the call changes no file that exists, and
    the only file it can make is the thumbnail: every image keeps its
    content, at every path other than the thumbnail path there is the
    image that was there or, as before, none, and the videos and the
    error messages are what they were. *)
Theorem make_thumbnail_keeps_files (img_path : string) (w : world) :
  videos (fst (make_thumbnail thumbnail encodable other_paths img_path w)) = videos w ∧
  errors (fst (make_thumbnail thumbnail encodable other_paths img_path w)) = errors w ∧
  (∀ q im, images w !! q = Some im →
           images (fst (make_thumbnail thumbnail encodable other_paths img_path w)) !! q
             = Some im) ∧
  (∀ q, q ≠ thumb_path_of img_path →
        images (fst (make_thumbnail thumbnail encodable other_paths img_path w)) !! q
          = images w !! q).
Proof.
  rewrite make_thumbnail_unfold.
  destruct (bool_decide (exists_at other_paths w (thumb_path_of img_path))) eqn:Hex;
    [done|].
  apply bool_decide_eq_false in Hex.
  destruct (images w !! img_path) as [im0|]; [|done].
  destruct (encodable _ _); [|done].
  split; [done|]. split; [done|]. split.
  - intros q im Hq. simpl.
    rewrite lookup_insert_ne; [done|]. intros Heq. apply Hex. left. rewrite Heq. eauto.
  - intros q Hq. simpl. by rewrite lookup_insert_ne.
Qed.

End ThumbnailFacts.

(** The thumbnail cache on concrete worlds. *)

Lemma make_thumbnail_path_witness :
  "thumbs/a.png" = "thumbs/" +:+ OsPath.basename "images/a.png" ∧
  contains_sep (OsPath.basename "images/a.png") = false.
Proof.
  apply (make_thumbnail_path plain_thumbnail always_encodable {["thumbs"]}
           "images/a.png" no_thumbs "thumbs/a.png").
  reflexivity.
Defined.

Lemma make_thumbnail_cached_witness :
  make_thumbnail plain_thumbnail always_encodable {["thumbs"]} "gone/a.png" old_thumb =
    (old_thumb, Ok (thumb_path_of "gone/a.png")).
Proof.
  apply (make_thumbnail_cached plain_thumbnail always_encodable {["thumbs"]}
           "gone/a.png" old_thumb).
  left. eexists. reflexivity.
Defined.

Lemma make_thumbnail_fresh_witness :
  make_thumbnail plain_thumbnail always_encodable {["thumbs"]} "images/a.png" no_thumbs =
    (World (<[thumb_path_of "images/a.png" := plain_thumbnail image_A (250, 250)%Z]>
              (images no_thumbs))
           (videos no_thumbs) (errors no_thumbs),
     Ok (thumb_path_of "images/a.png")) ∧
  images (fst (make_thumbnail plain_thumbnail always_encodable {["thumbs"]}
                 "images/a.png" no_thumbs)) !! "images/a.png"
    = Some image_A.
Proof.
  apply (make_thumbnail_fresh plain_thumbnail always_encodable {["thumbs"]}
           "images/a.png" no_thumbs image_A).
  - intros [[im H]|[[v H]|H]].
    + vm_compute in H. discriminate H.
    + vm_compute in H. discriminate H.
    + apply elem_of_singleton in H. discriminate H.
  - reflexivity.
  - reflexivity.
Defined.
